(** * body-parser acceleration layer: parse cache, buffer pool, content-type cache

  A shallow embedding of [lib/parse-cache.js], [lib/buffer-pool.js] and
  [lib/content-type-cache.js], followed by the properties established
  about them.

  Conventions of the embedding:
  - a JavaScript [Map] is an insertion-ordered association list with
    pairwise distinct keys ([JSMap]);
  - every method takes the object's state and returns the new state next
    to its result;
  - [Date.now()] is an explicit argument [now] of the method that reads
    the clock;
  - counters are natural numbers, timestamps and durations are integers. *)

From Stdlib Require Import List String Ascii ZArith Arith Bool Lia QArith.
From Stdlib.Strings Require Import Byte.
Import ListNotations.

Local Open Scope list_scope.
Local Open Scope nat_scope.

(** ** Hit rate

    [hits / (hits + misses) || 0], shared by the three [stats] methods: 0
    when nothing was counted (the source's [NaN || 0]) and when there is no
    hit.  The quotient is the exact fraction; the source rounds it to a
    double. *)

Definition hit_rate (h m : nat) : Q :=
  match (h + m)%nat with
  | O => 0%Q
  | S n => Qmake (Z.of_nat h) (Pos.of_succ_nat n)
  end.

(** ** JavaScript [Map] with string keys *)

Module JSMap.
Section WithValue.
Context {V : Type}.

Definition t : Type := list (string * V).

(** [new Map()] *)
Definition empty : t := [].

(** [m.size] *)
Definition size (m : t) : nat := List.length m.

(** [m.get(k)]; [None] stands for [undefined]. *)
Fixpoint get (k : string) (m : t) : option V :=
  match m with
  | [] => None
  | (k', v) :: rest => if String.eqb k k' then Some v else get k rest
  end.

(** [m.set(k, v)]: an existing key keeps its position and takes the new
    value, a new key goes to the end of the iteration order. *)
Fixpoint set (k : string) (v : V) (m : t) : t :=
  match m with
  | [] => [(k, v)]
  | (k', v') :: rest =>
      if String.eqb k k' then (k', v) :: rest else (k', v') :: set k v rest
  end.

(** [m.delete(k)] *)
Definition delete (k : string) (m : t) : t :=
  filter (fun p => negb (String.eqb k (fst p))) m.

(** [m.keys().next().value]; [None] stands for [undefined], the value
    an exhausted iterator yields. *)
Definition first_key (m : t) : option string :=
  match m with
  | [] => None
  | (k, _) :: _ => Some k
  end.

(** [m.delete(m.keys().next().value)]: deleting [undefined] from a map
    whose keys are strings removes nothing. *)
Definition delete_first (m : t) : t :=
  match first_key m with
  | Some k => delete k m
  | None => m
  end.

Definition keys (m : t) : list string := map fst m.

(** Keys of a [Map] are pairwise distinct. *)
Definition wf (m : t) : Prop := NoDup (keys m).
End WithValue.
Arguments t : clear implicits.
End JSMap.

(** ** lib/parse-cache.js *)

Module ParseCache.

Definition DEFAULT_TTL : Z := 60000.
Definition MAX_CACHE_SIZE : Z := 100.
Definition MAX_CACHEABLE_SIZE : nat := 10 * 1024.

(** A request body is a string or a [Buffer]. *)
Inductive body : Type :=
| BString (s : string)
| BBuffer (b : list byte).

(** [body.length]: code units of a string, bytes of a buffer. *)
Definition body_length (b : body) : nat :=
  match b with
  | BString s => String.length s
  | BBuffer l => List.length l
  end.

Section WithParams.
(** The cached values are arbitrary results of a body parser. *)
Context {V : Type}.
(** [crypto.createHash('sha256').update(s).digest('hex')] *)
Variable sha256_hex : string -> string.
(** [Buffer.prototype.toString()] *)
Variable buffer_toString : list byte -> string.

Record entry : Type := mkEntry { value : V; expiresAt : Z }.

Record t : Type := mk {
  cache : JSMap.t entry;
  ttl : Z;
  maxSize : Z;
  hits : nat;
  misses : nat;
  evictions : nat
}.

Definition with_cache (c : JSMap.t entry) (st : t) : t :=
  mk c (ttl st) (maxSize st) (hits st) (misses st) (evictions st).
Definition incr_hits (st : t) : t :=
  mk (cache st) (ttl st) (maxSize st) (S (hits st)) (misses st) (evictions st).
Definition incr_misses (st : t) : t :=
  mk (cache st) (ttl st) (maxSize st) (hits st) (S (misses st)) (evictions st).
Definition incr_evictions (st : t) : t :=
  mk (cache st) (ttl st) (maxSize st) (hits st) (misses st) (S (evictions st)).

(** [constructor (ttl = DEFAULT_TTL, maxSize = MAX_CACHE_SIZE)] *)
Definition new (ttl0 maxSize0 : Z) : t := mk JSMap.empty ttl0 maxSize0 0 0 0.
Definition new_default : t := new DEFAULT_TTL MAX_CACHE_SIZE.

(** [typeof body === 'string' ? body : body.toString()] *)
Definition body_text (b : body) : string :=
  match b with
  | BString s => s
  | BBuffer l => buffer_toString l
  end.

(** [Date.now() > entry.expiresAt], with [now] the clock's reading. *)
Definition expired (now : Z) (e : entry) : bool := (expiresAt e <? now)%Z.

Definition _generateKey (b : body) : string :=
  if body_length b <? 100 then body_text b
  else sha256_hex (body_text b).

(** [get (body)]; the result [None] is the source's [null]. *)
Definition get (st : t) (b : body) (now : Z) : option V * t :=
  if MAX_CACHEABLE_SIZE <? body_length b then (None, st)
  else
    let key := _generateKey b in
    match JSMap.get key (cache st) with
    | None => (None, incr_misses st)
    | Some e =>
        if expired now e
        then (None, incr_misses (with_cache (JSMap.delete key (cache st)) st))
        else (Some (value e), incr_hits st)
    end.

(** The eviction step of [set]. *)
Definition evict_if_full (st : t) : t :=
  if (maxSize st <=? Z.of_nat (JSMap.size (cache st)))%Z
  then incr_evictions (with_cache (JSMap.delete_first (cache st)) st)
  else st.

(** [set (body, value)] *)
Definition set (st : t) (b : body) (v : V) (now : Z) : t :=
  if MAX_CACHEABLE_SIZE <? body_length b then st
  else
    let st1 := evict_if_full st in
    let key := _generateKey b in
    with_cache (JSMap.set key (mkEntry v (now + ttl st1)%Z) (cache st1)) st1.

Record statistics : Type := mkStats {
  stat_size : nat;
  stat_hits : nat;
  stat_misses : nat;
  stat_evictions : nat;
  stat_hitRate : Q
}.

(** [stats ()] *)
Definition stats (st : t) : statistics :=
  mkStats (JSMap.size (cache st)) (hits st) (misses st) (evictions st)
          (hit_rate (hits st) (misses st)).

(** [clear ()] *)
Definition clear (st : t) : t := with_cache JSMap.empty st.

(** The loop of [cleanup]: [todo] is what the iterator has still to
    visit, [c] the live map and [cleaned] the running count.  Deleting the
    entry under the iterator leaves the entries not yet visited in
    place. *)
Fixpoint cleanup_loop (now : Z) (todo c : JSMap.t entry) (cleaned : nat)
  : JSMap.t entry * nat :=
  match todo with
  | [] => (c, cleaned)
  | (key, e) :: rest =>
      if expired now e
      then cleanup_loop now rest (JSMap.delete key c) (S cleaned)
      else cleanup_loop now rest c cleaned
  end.

(** [cleanup ()] *)
Definition cleanup (st : t) (now : Z) : nat * t :=
  let r := cleanup_loop now (cache st) (cache st) 0 in
  (snd r, with_cache (fst r) st).

(** The calls a client can make on a cache, and their execution in
    sequence. *)
Inductive op : Type :=
| OpGet (b : body) (now : Z)
| OpSet (b : body) (v : V) (now : Z)
| OpCleanup (now : Z)
| OpClear.

Definition step (st : t) (o : op) : t :=
  match o with
  | OpGet b now => snd (get st b now)
  | OpSet b v now => set st b v now
  | OpCleanup now => snd (cleanup st now)
  | OpClear => clear st
  end.

Definition run (ops : list op) (st : t) : t := fold_left step ops st.

(** A read of the cache, as a call. *)
Definition read_op (r : body * Z) : op := OpGet (fst r) (snd r).

(** The calls that get past the size gate: the reads that reach the
    lookup, and the writes that reach the store. *)
Definition is_lookup (o : op) : bool :=
  match o with
  | OpGet b _ => body_length b <=? MAX_CACHEABLE_SIZE
  | _ => false
  end.

Definition is_store (o : op) : bool :=
  match o with
  | OpSet b _ _ => body_length b <=? MAX_CACHEABLE_SIZE
  | _ => false
  end.

End WithParams.
Arguments entry : clear implicits.
Arguments t : clear implicits.
Arguments op : clear implicits.
End ParseCache.

(** ** lib/buffer-pool.js *)

Module BufferPool.

Definition POOL_SIZE : nat := 8 * 1024.
Definition MAX_POOL_ENTRIES : nat := 50.

(** *** Buffers and the memory behind them

    A [Buffer] is a view on a block of memory: [slice] makes a second
    view on the same block, and a write through one view is seen through
    every view that covers the cell.  The memory maps a block and an index
    to a byte; blocks from [next_block] on are not allocated yet and hold
    whatever the memory holds there, which is what [Buffer.allocUnsafe]
    hands out. *)

Record heap : Type := mkHeap {
  mem : nat -> nat -> byte;
  next_block : nat
}.

Record Buffer : Type := mkBuffer {
  block : nat;
  offset : nat;
  length : nat
}.

(** The cell at index [i] of block [b] lies inside the view [buf]. *)
Definition covers (buf : Buffer) (b i : nat) : bool :=
  (b =? block buf) && (offset buf <=? i) && (i <? offset buf + length buf).

(** [buf[i]] *)
Definition read (h : heap) (buf : Buffer) (i : nat) : byte :=
  mem h (block buf) (offset buf + i).

(** The content of a buffer, first byte first. *)
Definition bytes (h : heap) (buf : Buffer) : list byte :=
  map (read h buf) (seq 0 (length buf)).

(** [buf[i] = v]; an index outside the buffer is ignored. *)
Definition write (h : heap) (buf : Buffer) (i : nat) (v : byte) : heap :=
  if i <? length buf
  then mkHeap (fun b j =>
                 if (b =? block buf) && (j =? offset buf + i) then v
                 else mem h b j)
              (next_block h)
  else h.

(** [buf.fill(v)] *)
Definition fill (h : heap) (buf : Buffer) (v : byte) : heap :=
  mkHeap (fun b j => if covers buf b j then v else mem h b j) (next_block h).

(** [buf.slice(start, end)] for non-negative bounds: a view on the same
    memory, the bounds clamped to the buffer. *)
Definition slice (buf : Buffer) (start end_ : nat) : Buffer :=
  let s := Nat.min start (length buf) in
  let e := Nat.min end_ (length buf) in
  mkBuffer (block buf) (offset buf + s) (e - s).

(** [Buffer.allocUnsafe(size)]: a fresh block, not initialised.  The
    sizes [acquire] asks for are [POOL_SIZE] at least, past the sizes Node
    serves from a slab it shares between buffers. *)
Definition allocUnsafe (h : heap) (size : nat) : Buffer * heap :=
  (mkBuffer (next_block h) 0 size, mkHeap (mem h) (S (next_block h))).

(** *** The pool *)

Record t : Type := mk {
  pool : list Buffer;
  hits : nat;
  misses : nat
}.

Definition new : t := mk [] 0 0.

Definition incr_misses (bp : t) : t := mk (pool bp) (hits bp) (S (misses bp)).

(** The scan of [acquire], from index [i] on: the first index whose
    buffer is long enough, with that buffer. *)
Fixpoint find_from (l : list Buffer) (size i : nat) : option (nat * Buffer) :=
  match l with
  | [] => None
  | buf :: rest =>
      if size <=? length buf then Some (i, buf)
      else find_from rest size (S i)
  end.

(** [l.splice(i, 1)], the list that is left. *)
Definition splice1 (i : nat) (l : list Buffer) : list Buffer :=
  firstn i l ++ skipn (S i) l.

(** [acquire (size)] *)
Definition acquire (h : heap) (bp : t) (size : nat) : Buffer * heap * t :=
  if POOL_SIZE * 2 <? size then
    let (buf, h') := allocUnsafe h size in
    (buf, h', incr_misses bp)
  else
    match find_from (pool bp) size 0 with
    | Some (i, buf) =>
        (if length buf =? size then buf else slice buf 0 size,
         h,
         mk (splice1 i (pool bp)) (S (hits bp)) (misses bp))
    | None =>
        let (buf, h') := allocUnsafe h (Nat.max size POOL_SIZE) in
        (buf, h', incr_misses bp)
    end.

(** [release (buffer)] *)
Definition release (h : heap) (bp : t) (buffer : Buffer) : heap * t :=
  if (length buffer <=? POOL_SIZE * 2)
     && (List.length (pool bp) <? MAX_POOL_ENTRIES)
  then (fill h buffer x00, mk (pool bp ++ [buffer]) (hits bp) (misses bp))
  else (h, bp).

Record statistics : Type := mkStats {
  stat_size : nat;
  stat_hits : nat;
  stat_misses : nat;
  stat_hitRate : Q
}.

(** [stats ()] *)
Definition stats (bp : t) : statistics :=
  mkStats (List.length (pool bp)) (hits bp) (misses bp)
          (hit_rate (hits bp) (misses bp)).

(** [clear ()] *)
Definition clear (bp : t) : t := mk [] (hits bp) (misses bp).

(** *** Requests sharing the pool

    What happens to the memory and the pool over time: calls of the
    pool's methods, and writes of the request handlers into their
    buffers.  A handler owns a buffer from [acquire] to [release]; a write
    into a cell that lies in an idle buffer of the pool is a use after
    release, which the pool's clients do not do, and [step] has no
    successor for it. *)

Inductive event : Type :=
| EvAcquire (size : nat)
| EvRelease (buf : Buffer)
| EvClear
| EvWrite (buf : Buffer) (i : nat) (v : byte).

Definition world : Type := heap * t.

(** Some idle buffer of the pool covers the cell. *)
Definition idle (bp : t) (b i : nat) : bool :=
  existsb (fun buf => covers buf b i) (pool bp).

Definition step (w : world) (e : event) : option world :=
  let (h, bp) := w in
  match e with
  | EvAcquire size =>
      let '(_, h', bp') := acquire h bp size in Some (h', bp')
  | EvRelease buf => Some (release h bp buf)
  | EvClear => Some (h, clear bp)
  | EvWrite buf i v =>
      if (i <? length buf) && idle bp (block buf) (offset buf + i)
      then None
      else Some (write h buf i v, bp)
  end.

Fixpoint run (es : list event) (w : world) : option world :=
  match es with
  | [] => Some w
  | e :: rest =>
      match step w e with
      | Some w' => run rest w'
      | None => None
      end
  end.

Definition is_acquire (e : event) : bool :=
  match e with
  | EvAcquire _ => true
  | _ => false
  end.

(** The three ways [acquire] ends: the bypass for large sizes, the hit
    on the first idle buffer that fits, the fresh allocation. *)
Inductive acquire_branch h bp (size : nat) : Buffer * heap * t -> Prop :=
| AcquireBypass :
    POOL_SIZE * 2 < size ->
    acquire_branch h bp size
      (fst (allocUnsafe h size), snd (allocUnsafe h size), incr_misses bp)
| AcquireHit i buf :
    size <= POOL_SIZE * 2 ->
    find_from (pool bp) size 0 = Some (i, buf) ->
    acquire_branch h bp size
      (if length buf =? size then buf else slice buf 0 size,
       h,
       mk (splice1 i (pool bp)) (S (hits bp)) (misses bp))
| AcquireFresh :
    size <= POOL_SIZE * 2 ->
    find_from (pool bp) size 0 = None ->
    acquire_branch h bp size
      (fst (allocUnsafe h (Nat.max size POOL_SIZE)),
       snd (allocUnsafe h (Nat.max size POOL_SIZE)),
       incr_misses bp).

(** Every byte of the buffer is zero. *)
Definition zeroed (h : heap) (buf : Buffer) : Prop :=
  forall i, i < length buf -> read h buf i = x00.

(** Every idle buffer of the pool is zeroed. *)
Definition pool_zeroed (w : world) : Prop :=
  Forall (zeroed (fst w)) (pool (snd w)).

End BufferPool.

(** ** lib/content-type-cache.js *)

Module ContentTypeCache.

Definition MAX_CACHE_SIZE : nat := 50.

(** The result of parsing a header: [{ type, parameters }]. *)
Record content_type : Type := mkContentType {
  type : string;
  parameters : list (string * string)
}.

(** [Object.entries(COMMON_TYPES)] *)
Definition COMMON_TYPES : list (string * content_type) :=
  [ ("application/json",
     mkContentType "application/json" []);
    ("application/json; charset=utf-8",
     mkContentType "application/json" [("charset", "utf-8")]);
    ("application/x-www-form-urlencoded",
     mkContentType "application/x-www-form-urlencoded" []);
    ("application/x-www-form-urlencoded; charset=utf-8",
     mkContentType "application/x-www-form-urlencoded" [("charset", "utf-8")]);
    ("text/plain",
     mkContentType "text/plain" []);
    ("text/plain; charset=utf-8",
     mkContentType "text/plain" [("charset", "utf-8")]) ]%string.

Record t : Type := mk {
  cache : JSMap.t content_type;
  hits : nat;
  misses : nat
}.

(** [constructor ()] *)
Definition new : t := mk COMMON_TYPES 0 0.

Definition with_cache (c : JSMap.t content_type) (st : t) : t :=
  mk c (hits st) (misses st).
Definition incr_hits (st : t) : t := mk (cache st) (S (hits st)) (misses st).
Definition incr_misses (st : t) : t := mk (cache st) (hits st) (S (misses st)).

(** The map is the baseline followed by the added entries, and the two
    together fit in [MAX_CACHE_SIZE]. *)
Definition seeded (st : t) : Prop :=
  exists dyn,
    cache st = COMMON_TYPES ++ dyn
    /\ List.length COMMON_TYPES + List.length dyn <= MAX_CACHE_SIZE.

Section WithError.
(** What a parser throws. *)
Context {E : Type}.

(** How a call ends: it returns a value or throws. *)
Inductive completion (A : Type) : Type :=
| Returned (a : A)
| Thrown (e : E).
Arguments Returned {A} a.
Arguments Thrown {A} e.

(** A method body: it runs on the cache's state and ends with a
    completion and the state it left; a throw keeps the updates made
    before it. *)
Definition M (A : Type) : Type := t -> completion A * t.

Definition ret {A} (a : A) : M A := fun st => (Returned a, st).
Definition bind {A B} (m : M A) (k : A -> M B) : M B :=
  fun st =>
    match m st with
    | (Returned a, st') => k a st'
    | (Thrown e, st') => (Thrown e, st')
    end.
Definition gets {A} (f : t -> A) : M A := fun st => (Returned (f st), st).
Definition modify (f : t -> t) : M unit := fun st => (Returned tt, f st).
(** A call of a function from outside, which does not touch the cache. *)
Definition call {A} (c : completion A) : M A := fun st => (c, st).

Notation "x <- m ;; k" := (bind m (fun x => k))
  (at level 61, m at next level, right associativity).
Notation "m ;; k" := (bind m (fun _ => k))
  (at level 61, right associativity).

(** The externally supplied [contentType.parse]. *)
Definition parser_fn : Type := string -> completion content_type.

(** [parse (header, parser)].  What the map holds are objects, so the
    test [if (cached)] is the test that the header was found. *)
Definition parse (header : string) (parser : parser_fn) : M content_type :=
  cached <- gets (fun st => JSMap.get header (cache st)) ;;
  match cached with
  | Some c =>
      modify incr_hits ;;
      ret c
  | None =>
      modify incr_misses ;;
      parsed <- call (parser header) ;;
      size <- gets (fun st => JSMap.size (cache st)) ;;
      (if size <? MAX_CACHE_SIZE
       then modify (fun st => with_cache (JSMap.set header parsed (cache st)) st)
       else ret tt) ;;
      ret parsed
  end.

Record statistics : Type := mkStats {
  stat_size : nat;
  stat_hits : nat;
  stat_misses : nat;
  stat_hitRate : Q
}.

(** [stats ()] *)
Definition stats (st : t) : statistics :=
  mkStats (JSMap.size (cache st)) (hits st) (misses st)
          (hit_rate (hits st) (misses st)).

(** [clear ()] *)
Definition clear (st : t) : t := with_cache COMMON_TYPES st.

(** The calls a client can make, and their execution in sequence; a
    call that throws leaves the state it reached. *)
Inductive op : Type :=
| OpParse (header : string) (parser : parser_fn)
| OpClear.

Definition step (st : t) (o : op) : t :=
  match o with
  | OpParse header parser => snd (parse header parser st)
  | OpClear => clear st
  end.

Definition run (ops : list op) (st : t) : t := fold_left step ops st.

Definition is_parse (o : op) : bool :=
  match o with
  | OpParse _ _ => true
  | OpClear => false
  end.

(** A sequence of calls of [parse], with no [clear] in between. *)
Definition parse_calls (calls : list (string * parser_fn)) : list op :=
  map (fun c => OpParse (fst c) (snd c)) calls.

End WithError.
Arguments completion : clear implicits.
Arguments Returned {E A} a.
Arguments Thrown {E A} e.
Arguments parser_fn : clear implicits.
Arguments op : clear implicits.
End ContentTypeCache.

(** ** The benchmark's request batches

    [runBenchmark] sends its requests in batches of [batchSize]: it
    computes the number of batches and, for batch [i], how many requests to
    send.  This is that arithmetic; the requests themselves are I/O. *)

Module Benchmark.

Definition WARMUP_REQUESTS : nat := 100.
Definition BENCHMARK_REQUESTS : nat := 10 * 1000.
Definition CONCURRENT_CONNECTIONS : nat := 10.

(** [Math.ceil(n / b)] on natural numbers, [b] positive. *)
Definition ceil_div (n b : nat) : nat :=
  if n mod b =? 0 then n / b else S (n / b).

(** [Math.min(batchSize, requests - i * batchSize)], the size of batch [i]. *)
Definition batch_count (requests batchSize i : nat) : nat :=
  Nat.min batchSize (requests - i * batchSize).

(** The sizes of the batches in the order the loop sends them. *)
Definition batch_counts (requests batchSize : nat) : list nat :=
  map (batch_count requests batchSize) (seq 0 (ceil_div requests batchSize)).

End Benchmark.

(** ** Concrete inputs

    Bodies, headers and stand-ins for the external functions, on which the
    definitions above are evaluated below. *)

Module Samples.

(** A string of [n] letters. *)
Fixpoint letters (n : nat) : string :=
  match n with
  | O => EmptyString
  | S k => String "a"%char (letters k)
  end.

(** A stand-in for the digest: any function of the text will do where
    only the shape of the key matters. *)
Definition toy_digest (s : string) : string := String.append "sha256:" s.

Definition get := @ParseCache.get nat toy_digest string_of_list_byte.
Definition set := @ParseCache.set nat toy_digest string_of_list_byte.
Definition cleanup := @ParseCache.cleanup nat.
Definition run := @ParseCache.run nat toy_digest string_of_list_byte.
Definition key := ParseCache._generateKey toy_digest string_of_list_byte.

(** A body one byte over the cacheable size. *)
Definition oversized : ParseCache.body :=
  ParseCache.BString (letters (S ParseCache.MAX_CACHEABLE_SIZE)).

Definition body_a : ParseCache.body := ParseCache.BString "a".
Definition body_b : ParseCache.body := ParseCache.BString "b".
Definition body_c : ParseCache.body := ParseCache.BString "c".

(** A cache of two entries at most, holding ["a"] then ["b"], both
    stored at time 0 with a TTL of 1000. *)
Definition full2 : ParseCache.t nat :=
  run [ParseCache.OpSet body_a 1 0%Z; ParseCache.OpSet body_b 2 0%Z]
      (ParseCache.new 1000%Z 2%Z).

(** A memory full of stale bytes, and a history on it: a handler acquires
    a buffer, writes into it and releases it. *)
Definition stale_heap : BufferPool.heap := BufferPool.mkHeap (fun _ _ => xff) 0.
Definition first_buffer : BufferPool.Buffer :=
  BufferPool.mkBuffer 0 0 BufferPool.POOL_SIZE.
Definition history : list BufferPool.event :=
  [BufferPool.EvAcquire 100;
   BufferPool.EvWrite first_buffer 3 x53;
   BufferPool.EvWrite first_buffer 70 x45;
   BufferPool.EvRelease first_buffer].
Definition after_history : BufferPool.world :=
  match BufferPool.run history (stale_heap, BufferPool.new) with
  | Some w => w
  | None => (stale_heap, BufferPool.new)
  end.

(** A media-type parser that accepts every header, and one that rejects
    every header. *)
Definition accept : ContentTypeCache.parser_fn string :=
  fun header => ContentTypeCache.Returned (ContentTypeCache.mkContentType header []).
Definition reject : ContentTypeCache.parser_fn string :=
  fun _ => ContentTypeCache.Thrown "invalid media type"%string.

(** [n] headers that are pairwise distinct and not in the baseline. *)
Definition headers (n : nat) : list string :=
  map (fun k => String.append "x/" (letters k)) (seq 1 n).
Definition parse_all (hs : list string) : list (ContentTypeCache.op string) :=
  map (fun header => ContentTypeCache.OpParse header accept) hs.
(** A stand-in for the digest whose values are short, as the 64
    characters of a real digest are. *)
Definition short_digest (s : string) : string :=
  String.append "#" (letters (String.length s mod 7)).

(** A body of 100 letters, long enough to be keyed by its digest. *)
Definition long_body : ParseCache.body := ParseCache.BString (letters 100).

(** The bytes of ["a"], as a [Buffer]. *)
Definition buffer_a : ParseCache.body := ParseCache.BBuffer [x61].

(** A view of 256 bytes on a block of its own. *)
Definition small_buffer : BufferPool.Buffer := BufferPool.mkBuffer 7 0 256.
End Samples.

(** * Properties *)

(** ** Facts about [JSMap] *)

Section JSMapFacts.
Context {V : Type}.
Implicit Types (m : JSMap.t V) (k : string) (v : V).

Lemma jsmap_get_set_same k v m : JSMap.get k (JSMap.set k v m) = Some v.
Proof.
  induction m as [|[k' v'] m IH]; simpl.
  - now rewrite String.eqb_refl.
  - destruct (String.eqb k k') eqn:Hk; simpl; rewrite Hk; auto.
Qed.

Lemma jsmap_get_set_other k k' v m :
  k <> k' -> JSMap.get k' (JSMap.set k v m) = JSMap.get k' m.
Proof.
  intros Hne. induction m as [|[k0 v0] m IH]; simpl.
  - destruct (String.eqb_spec k' k); congruence.
  - destruct (String.eqb_spec k k0) as [->|Hk0]; simpl.
    + destruct (String.eqb_spec k' k0); congruence.
    + now rewrite IH.
Qed.

Lemma jsmap_get_none_notin k m :
  JSMap.get k m = None <-> ~ In k (JSMap.keys m).
Proof.
  induction m as [|[k' v'] m IH]; simpl.
  - tauto.
  - destruct (String.eqb_spec k k') as [->|Hk].
    + split; [discriminate | intros H; exfalso; apply H; now left].
    + rewrite IH. split; [intros H [E|I]; [congruence | tauto] | tauto].
Qed.

Lemma jsmap_get_some_in k v m :
  JSMap.get k m = Some v -> In k (JSMap.keys m).
Proof.
  intros H. destruct (in_dec string_dec k (JSMap.keys m)) as [I|N]; auto.
  apply jsmap_get_none_notin in N. congruence.
Qed.

Lemma jsmap_get_in k v m : JSMap.get k m = Some v -> In (k, v) m.
Proof.
  induction m as [|[k' v'] m IH]; simpl; [discriminate|].
  destruct (String.eqb_spec k k') as [->|Hk]; intros H.
  - left. congruence.
  - right. auto.
Qed.

(** A new key goes to the end. *)
Lemma jsmap_set_fresh k v m :
  JSMap.get k m = None -> JSMap.set k v m = m ++ [(k, v)].
Proof.
  induction m as [|[k' v'] m IH]; simpl; auto.
  destruct (String.eqb k k'); [discriminate|].
  intros H. now rewrite IH.
Qed.

(** An existing key keeps its place: the keys do not move. *)
Lemma jsmap_set_keys_present k v m :
  In k (JSMap.keys m) -> JSMap.keys (JSMap.set k v m) = JSMap.keys m.
Proof.
  induction m as [|[k' v'] m IH]; simpl; [tauto|].
  destruct (String.eqb_spec k k') as [->|Hk]; simpl; auto.
  intros [E|I]; [congruence|]. now rewrite IH.
Qed.

Lemma jsmap_set_keys_absent k v m :
  ~ In k (JSMap.keys m) -> JSMap.keys (JSMap.set k v m) = JSMap.keys m ++ [k].
Proof.
  intros H. apply jsmap_get_none_notin in H.
  rewrite jsmap_set_fresh by assumption.
  unfold JSMap.keys. now rewrite map_app.
Qed.

Lemma jsmap_size_keys m : JSMap.size m = List.length (JSMap.keys m).
Proof. unfold JSMap.size, JSMap.keys. now rewrite length_map. Qed.

Lemma jsmap_size_set_present k v m :
  In k (JSMap.keys m) -> JSMap.size (JSMap.set k v m) = JSMap.size m.
Proof.
  intros H. now rewrite !jsmap_size_keys, jsmap_set_keys_present.
Qed.

Lemma jsmap_size_set_absent k v m :
  ~ In k (JSMap.keys m) -> JSMap.size (JSMap.set k v m) = S (JSMap.size m).
Proof.
  intros H. rewrite !jsmap_size_keys, jsmap_set_keys_absent by assumption.
  rewrite length_app. simpl. lia.
Qed.

Lemma jsmap_size_set_le k v m :
  JSMap.size (JSMap.set k v m) <= S (JSMap.size m).
Proof.
  destruct (in_dec string_dec k (JSMap.keys m)).
  - rewrite jsmap_size_set_present by assumption. lia.
  - rewrite jsmap_size_set_absent by assumption. lia.
Qed.

Lemma jsmap_wf_set k v m : JSMap.wf m -> JSMap.wf (JSMap.set k v m).
Proof.
  unfold JSMap.wf. intros H.
  destruct (in_dec string_dec k (JSMap.keys m)).
  - now rewrite jsmap_set_keys_present.
  - rewrite jsmap_set_keys_absent by assumption.
    apply NoDup_app; auto.
    + repeat constructor. simpl. tauto.
    + intros x Hx [<-|[]]. tauto.
Qed.

Lemma jsmap_keys_delete k m :
  JSMap.keys (JSMap.delete k m)
  = filter (fun k' => negb (String.eqb k k')) (JSMap.keys m).
Proof.
  unfold JSMap.keys, JSMap.delete.
  induction m as [|[k' v'] m IH]; simpl; auto.
  destruct (String.eqb k k'); simpl; now rewrite IH.
Qed.

Lemma jsmap_wf_delete k m : JSMap.wf m -> JSMap.wf (JSMap.delete k m).
Proof.
  unfold JSMap.wf. rewrite jsmap_keys_delete. apply NoDup_filter.
Qed.

Lemma jsmap_size_delete_le k m : JSMap.size (JSMap.delete k m) <= JSMap.size m.
Proof. apply filter_length_le. Qed.

Lemma jsmap_delete_absent k m :
  ~ In k (JSMap.keys m) -> JSMap.delete k m = m.
Proof.
  unfold JSMap.delete, JSMap.keys.
  induction m as [|[k' v'] m IH]; simpl; auto.
  intros H. destruct (String.eqb_spec k k') as [->|Hk]; simpl.
  - tauto.
  - rewrite IH; tauto.
Qed.

(** Deleting a key that is present makes the map one entry smaller. *)
Lemma jsmap_size_delete_present k m :
  JSMap.wf m -> In k (JSMap.keys m) ->
  S (JSMap.size (JSMap.delete k m)) = JSMap.size m.
Proof.
  unfold JSMap.wf.
  induction m as [|[k' v'] m IH]; simpl; [tauto|].
  intros Hnd Hin. inversion Hnd as [|? ? Hni Hnd']; subst.
  unfold JSMap.delete; simpl.
  destruct (String.eqb_spec k k') as [->|Hk]; simpl.
  - fold (JSMap.delete k' m). now rewrite jsmap_delete_absent.
  - fold (JSMap.delete k m). unfold JSMap.size in *. simpl.
    rewrite IH; auto. destruct Hin; congruence.
Qed.

Lemma jsmap_get_delete_same k m : JSMap.get k (JSMap.delete k m) = None.
Proof.
  apply jsmap_get_none_notin. rewrite jsmap_keys_delete.
  intros H. apply filter_In in H. destruct H as [_ H].
  now rewrite String.eqb_refl in H.
Qed.

(** The oldest entry of a well-formed map is its head, and deleting it
    leaves the rest as it is. *)
Lemma jsmap_delete_first_cons k v m :
  JSMap.wf ((k, v) :: m) -> JSMap.delete_first ((k, v) :: m) = m.
Proof.
  unfold JSMap.wf, JSMap.delete_first. simpl. intros H.
  inversion H; subst. unfold JSMap.delete. simpl.
  rewrite String.eqb_refl. simpl.
  now apply jsmap_delete_absent.
Qed.

Lemma jsmap_wf_delete_first m : JSMap.wf m -> JSMap.wf (JSMap.delete_first m).
Proof.
  unfold JSMap.delete_first. destruct (JSMap.first_key m); auto.
  apply jsmap_wf_delete.
Qed.

Lemma jsmap_size_delete_first m :
  JSMap.size (JSMap.delete_first m) <= Nat.pred (JSMap.size m).
Proof.
  destruct m as [|[k v] m]; simpl; auto.
  unfold JSMap.delete_first, JSMap.delete. simpl.
  rewrite String.eqb_refl. simpl. apply filter_length_le.
Qed.
End JSMapFacts.

(** ** The body parse cache *)

#[global] Arguments ParseCache.get : simpl never.
#[global] Arguments ParseCache.set : simpl never.
#[global] Arguments ParseCache.cleanup : simpl never.
#[global] Arguments ParseCache.expired : simpl never.

Section ParseCacheFacts.
Context {V : Type}.
Variable sha256_hex : string -> string.
Variable buffer_toString : list byte -> string.

Local Abbreviation cache_t := (ParseCache.t V).
Local Abbreviation get := (@ParseCache.get V sha256_hex buffer_toString).
Local Abbreviation set := (@ParseCache.set V sha256_hex buffer_toString).
Local Abbreviation key := (ParseCache._generateKey sha256_hex buffer_toString).
Local Abbreviation run := (@ParseCache.run V sha256_hex buffer_toString).
Local Abbreviation step := (@ParseCache.step V sha256_hex buffer_toString).
Local Abbreviation read_op := (@ParseCache.read_op V).
Local Abbreviation expired := (@ParseCache.expired V).
Local Abbreviation live now :=
(fun p : string * ParseCache.entry V => negb (expired now (snd p))).
Local Abbreviation dead now :=
(fun p : string * ParseCache.entry V => expired now (snd p)).
Local Abbreviation csize st := (JSMap.size (ParseCache.cache st)).

Implicit Types (st : cache_t) (b : ParseCache.body) (v : V) (now : Z).

(** *** The size gate *)

Lemma get_oversized st b now :
  ParseCache.MAX_CACHEABLE_SIZE < ParseCache.body_length b ->
  get st b now = (None, st).
Proof.
  intros H. unfold ParseCache.get.
  apply Nat.ltb_lt in H. now rewrite H.
Qed.

Lemma set_oversized st b v now :
  ParseCache.MAX_CACHEABLE_SIZE < ParseCache.body_length b ->
  set st b v now = st.
Proof.
  intros H. unfold ParseCache.set.
  apply Nat.ltb_lt in H. now rewrite H.
Qed.

(** *** What [get] does to the state *)

(** The three outcomes of [get] on a body that passes the size gate. *)
Lemma get_cases st b now :
  ParseCache.body_length b <= ParseCache.MAX_CACHEABLE_SIZE ->
  (JSMap.get (key b) (ParseCache.cache st) = None
   /\ get st b now = (None, ParseCache.incr_misses st))
  \/ (exists e, JSMap.get (key b) (ParseCache.cache st) = Some e
        /\ (ParseCache.expiresAt e < now)%Z
        /\ get st b now
           = (None,
              ParseCache.incr_misses
                (ParseCache.with_cache
                   (JSMap.delete (key b) (ParseCache.cache st)) st)))
  \/ (exists e, JSMap.get (key b) (ParseCache.cache st) = Some e
        /\ (now <= ParseCache.expiresAt e)%Z
        /\ get st b now = (Some (ParseCache.value e), ParseCache.incr_hits st)).
Proof.
  intros Hlen. unfold ParseCache.get.
  destruct (Nat.ltb_spec ParseCache.MAX_CACHEABLE_SIZE (ParseCache.body_length b));
    [lia|].
  destruct (JSMap.get (key b) (ParseCache.cache st)) as [e|]; [|now left].
  right. unfold ParseCache.expired.
  destruct (Z.ltb_spec (ParseCache.expiresAt e) now).
  - left. exists e. auto.
  - right. exists e. auto.
Qed.

(** [get] leaves the map as it is, or makes it smaller. *)
Lemma get_cache_same_or_smaller st b now :
  JSMap.wf (ParseCache.cache st) ->
  ParseCache.cache (snd (get st b now)) = ParseCache.cache st
  \/ csize (snd (get st b now)) < csize st.
Proof.
  intros Hwf.
  destruct (Nat.ltb_spec ParseCache.MAX_CACHEABLE_SIZE (ParseCache.body_length b))
    as [Hbig|Hok].
  - rewrite get_oversized by assumption. now left.
  - destruct (get_cases st b now Hok)
      as [[_ ->]|[(e & He & _ & ->)|(e & _ & _ & ->)]]; simpl; auto.
    right. apply jsmap_get_some_in in He.
    pose proof (jsmap_size_delete_present _ _ Hwf He). lia.
Qed.

Lemma get_fields st b now :
  ParseCache.ttl (snd (get st b now)) = ParseCache.ttl st
  /\ ParseCache.maxSize (snd (get st b now)) = ParseCache.maxSize st
  /\ ParseCache.evictions (snd (get st b now)) = ParseCache.evictions st.
Proof.
  unfold ParseCache.get.
  destruct (_ <? _); simpl; auto.
  destruct (JSMap.get _ _) as [e|]; simpl; auto.
  destruct (ParseCache.expired _ _); simpl; auto.
Qed.

Lemma get_wf st b now :
  JSMap.wf (ParseCache.cache st) ->
  JSMap.wf (ParseCache.cache (snd (get st b now))).
Proof.
  intros Hwf. unfold ParseCache.get.
  destruct (_ <? _); simpl; auto.
  destruct (JSMap.get _ _) as [e|]; simpl; auto.
  destruct (ParseCache.expired _ _); simpl; auto.
  now apply jsmap_wf_delete.
Qed.

(** *** What [set] does to the state *)

Lemma evict_if_full_fields st :
  ParseCache.ttl (ParseCache.evict_if_full st) = ParseCache.ttl st
  /\ ParseCache.maxSize (ParseCache.evict_if_full st) = ParseCache.maxSize st.
Proof. unfold ParseCache.evict_if_full. destruct (_ <=? _)%Z; simpl; auto. Qed.

Lemma set_fields st b v now :
  ParseCache.ttl (set st b v now) = ParseCache.ttl st
  /\ ParseCache.maxSize (set st b v now) = ParseCache.maxSize st.
Proof.
  unfold ParseCache.set. destruct (_ <? _); simpl; auto.
  apply evict_if_full_fields.
Qed.

Lemma set_wf st b v now :
  JSMap.wf (ParseCache.cache st) ->
  JSMap.wf (ParseCache.cache (set st b v now)).
Proof.
  intros Hwf. unfold ParseCache.set.
  destruct (_ <? _); simpl; auto.
  apply jsmap_wf_set. unfold ParseCache.evict_if_full.
  destruct (_ <=? _)%Z; simpl; auto.
  now apply jsmap_wf_delete_first.
Qed.

(** With room for one entry at least, [set] keeps the map within its
    maximum. *)
Lemma set_size_bound st b v now :
  (1 <= ParseCache.maxSize st)%Z ->
  (Z.of_nat (csize st) <= ParseCache.maxSize st)%Z ->
  (Z.of_nat (csize (set st b v now)) <= ParseCache.maxSize st)%Z.
Proof.
  intros Hpos Hle. unfold ParseCache.set.
  destruct (_ <? _); simpl; auto.
  unfold ParseCache.evict_if_full.
  destruct (Z.leb_spec (ParseCache.maxSize st) (Z.of_nat (csize st))); simpl.
  - match goal with |- context [JSMap.set ?k ?e ?m] =>
      pose proof (jsmap_size_set_le k e m) end.
    pose proof (jsmap_size_delete_first (ParseCache.cache st)). lia.
  - match goal with |- context [JSMap.set ?k ?e ?m] =>
      pose proof (jsmap_size_set_le k e m) end.
    lia.
Qed.

(** The state of a full cache after [set]: the head of the map is gone,
    one eviction is counted, and the new entry is set in what is left. *)
Lemma set_at_capacity st b v now k0 e0 rest :
  JSMap.wf (ParseCache.cache st) ->
  ParseCache.body_length b <= ParseCache.MAX_CACHEABLE_SIZE ->
  (ParseCache.maxSize st <= Z.of_nat (csize st))%Z ->
  ParseCache.cache st = (k0, e0) :: rest ->
  ParseCache.cache (set st b v now)
  = JSMap.set (key b) (ParseCache.mkEntry v (now + ParseCache.ttl st)%Z) rest
  /\ ParseCache.evictions (set st b v now) = S (ParseCache.evictions st).
Proof.
  intros Hwf Hlen Hfull Hc. unfold ParseCache.set.
  destruct (Nat.ltb_spec ParseCache.MAX_CACHEABLE_SIZE (ParseCache.body_length b));
    [lia|].
  unfold ParseCache.evict_if_full.
  destruct (Z.leb_spec (ParseCache.maxSize st) (Z.of_nat (csize st))); [|lia].
  simpl. rewrite Hc in *. now rewrite jsmap_delete_first_cons.
Qed.

(** *** The loop of [cleanup] *)

Lemma filter_filter_and {A} (f g : A -> bool) (l : list A) :
  filter f (filter g l) = filter (fun x => g x && f x) l.
Proof.
  induction l as [|x l IH]; simpl; auto.
  destruct (g x); simpl; [destruct (f x)|]; now rewrite IH.
Qed.

Lemma cleanup_loop_spec now (todo c : JSMap.t (ParseCache.entry V)) n :
  ParseCache.cleanup_loop now todo c n
  = (filter (fun p => negb (existsb (fun q => String.eqb (fst q) (fst p))
                                     (filter (dead now) todo))) c,
     n + List.length (filter (dead now) todo)).
Proof.
  revert c n. induction todo as [|[k e] todo IH]; intros c n; simpl.
  - f_equal; [|lia]. now rewrite filter_true.
  - destruct (ParseCache.expired now e) eqn:Hexp; simpl.
    + rewrite IH. f_equal; [|simpl; lia].
      unfold JSMap.delete. rewrite filter_filter_and.
      apply filter_ext. intros p. simpl. now rewrite negb_orb.
    + now rewrite IH.
Qed.

Lemma jsmap_wf_unique (m : JSMap.t (ParseCache.entry V)) p q :
  JSMap.wf m -> In p m -> In q m -> fst p = fst q -> p = q.
Proof.
  unfold JSMap.wf, JSMap.keys.
  induction m as [|x m IH]; simpl; [tauto|].
  intros Hnd Hp Hq E. inversion Hnd as [|? ? Hni Hnd']; subst.
  destruct Hp as [->|Hp], Hq as [->|Hq]; auto.
  - exfalso. apply Hni. rewrite E. now apply in_map.
  - exfalso. apply Hni. rewrite <- E. now apply in_map.
Qed.

(** On a well-formed map the sweep removes the expired entries, and
    those only. *)
Lemma swept_expired now (m : JSMap.t (ParseCache.entry V)) p :
  JSMap.wf m -> In p m ->
  existsb (fun q => String.eqb (fst q) (fst p)) (filter (dead now) m)
  = expired now (snd p).
Proof.
  intros Hwf Hp.
  destruct (expired now (snd p)) eqn:He.
  - apply existsb_exists. exists p. split.
    + apply filter_In. auto.
    + apply String.eqb_refl.
  - destruct (existsb _ _) eqn:Hx; auto.
    apply existsb_exists in Hx. destruct Hx as (q & Hq & Hk).
    apply filter_In in Hq. destruct Hq as [Hq Hqe].
    apply String.eqb_eq in Hk.
    assert (q = p) by (eapply jsmap_wf_unique; eauto).
    congruence.
Qed.

Lemma cleanup_spec st now :
  JSMap.wf (ParseCache.cache st) ->
  ParseCache.cleanup st now
  = (List.length (filter (dead now) (ParseCache.cache st)),
     ParseCache.with_cache (filter (live now) (ParseCache.cache st)) st).
Proof.
  intros Hwf. unfold ParseCache.cleanup.
  rewrite cleanup_loop_spec. simpl. f_equal. f_equal.
  apply filter_ext_in. intros p Hp. simpl. now rewrite swept_expired.
Qed.

Lemma cleanup_wf st now :
  JSMap.wf (ParseCache.cache st) ->
  JSMap.wf (ParseCache.cache (snd (ParseCache.cleanup st now))).
Proof.
  intros Hwf. rewrite cleanup_spec by assumption. simpl.
  unfold JSMap.wf, JSMap.keys in *.
  induction (ParseCache.cache st) as [|p m IH]; simpl; auto.
  inversion Hwf as [|? ? Hni Hnd]; subst.
  destruct (ParseCache.expired now (snd p)); simpl; auto.
  constructor; auto.
  intros Hin. apply Hni. apply in_map_iff in Hin.
  destruct Hin as (q & Hq & Hf). apply filter_In in Hf.
  rewrite <- Hq. apply in_map. tauto.
Qed.

Lemma cleanup_size_le st now :
  JSMap.wf (ParseCache.cache st) ->
  csize (snd (ParseCache.cleanup st now)) <= csize st.
Proof.
  intros Hwf. rewrite cleanup_spec by assumption. simpl.
  apply filter_length_le.
Qed.

(** *** States reached from a new cache *)

Lemma step_invariant st o :
  JSMap.wf (ParseCache.cache st) ->
  (1 <= ParseCache.maxSize st)%Z ->
  (Z.of_nat (csize st) <= ParseCache.maxSize st)%Z ->
  JSMap.wf (ParseCache.cache (step st o))
  /\ (Z.of_nat (csize (step st o)) <= ParseCache.maxSize st)%Z
  /\ ParseCache.maxSize (step st o) = ParseCache.maxSize st
  /\ ParseCache.ttl (step st o) = ParseCache.ttl st.
Proof.
  intros Hwf Hpos Hle. destruct o as [b now|b v now|now|]; cbn [ParseCache.step].
  - pose proof (get_fields st b now) as (Ht & Hm & _).
    repeat split; auto using get_wf.
    destruct (get_cache_same_or_smaller st b now Hwf) as [E|L].
    + now rewrite E.
    + lia.
  - pose proof (set_fields st b v now) as (Ht & Hm).
    repeat split; auto using set_wf, set_size_bound.
  - pose proof (cleanup_size_le st now Hwf).
    repeat split; auto using cleanup_wf; try reflexivity. lia.
  - repeat split; simpl; try lia. constructor.
Qed.

Lemma run_cons o ops st : run (o :: ops) st = run ops (step st o).
Proof. reflexivity. Qed.

Lemma run_invariant ops st :
  JSMap.wf (ParseCache.cache st) ->
  (1 <= ParseCache.maxSize st)%Z ->
  (Z.of_nat (csize st) <= ParseCache.maxSize st)%Z ->
  JSMap.wf (ParseCache.cache (run ops st))
  /\ (Z.of_nat (csize (run ops st)) <= ParseCache.maxSize st)%Z
  /\ ParseCache.maxSize (run ops st) = ParseCache.maxSize st
  /\ ParseCache.ttl (run ops st) = ParseCache.ttl st.
Proof.
  revert st. induction ops as [|o ops IH]; intros st Hwf Hpos Hle.
  - now cbn.
  - rewrite run_cons.
    destruct (step_invariant st o Hwf Hpos Hle) as (Hwf' & Hle' & Hm & Ht).
    destruct (IH (step st o)) as (H1 & H2 & H3 & H4); try rewrite Hm; auto.
    rewrite Hm, Ht in *. auto.
Qed.

(** *** Reads between two insertions *)

Lemma reads_cons b now reads st :
  run (map read_op ((b, now) :: reads)) st
  = run (map read_op reads) (snd (get st b now)).
Proof. reflexivity. Qed.

Lemma reads_size_le reads st :
  JSMap.wf (ParseCache.cache st) ->
  JSMap.wf (ParseCache.cache (run (map read_op reads) st))
  /\ csize (run (map read_op reads) st) <= csize st.
Proof.
  revert st. induction reads as [|[b now] reads IH]; intros st Hwf.
  - cbn. auto.
  - rewrite reads_cons.
    destruct (IH (snd (get st b now)) (get_wf st b now Hwf)) as [Hwf' Hle].
    split; auto.
    destruct (get_cache_same_or_smaller st b now Hwf) as [E|L].
    + now rewrite E in Hle.
    + lia.
Qed.

(** Reads that leave the cache as full as it was leave its map, order
    included, as it was. *)
Lemma reads_keep_order reads st :
  JSMap.wf (ParseCache.cache st) ->
  csize (run (map read_op reads) st) = csize st ->
  ParseCache.cache (run (map read_op reads) st) = ParseCache.cache st.
Proof.
  revert st. induction reads as [|[b now] reads IH]; intros st Hwf Hsz.
  - reflexivity.
  - rewrite reads_cons in *.
    pose proof (reads_size_le reads (snd (get st b now)) (get_wf st b now Hwf))
      as [_ Hle].
    destruct (get_cache_same_or_smaller st b now Hwf) as [E|L].
    + rewrite IH; auto using get_wf. now rewrite E.
    + lia.
Qed.

Lemma reads_fields reads st :
  ParseCache.evictions (run (map read_op reads) st) = ParseCache.evictions st
  /\ ParseCache.maxSize (run (map read_op reads) st) = ParseCache.maxSize st
  /\ ParseCache.ttl (run (map read_op reads) st) = ParseCache.ttl st.
Proof.
  revert st. induction reads as [|[b now] reads IH]; intros st.
  - cbn. auto.
  - rewrite reads_cons.
    destruct (IH (snd (get st b now))) as (H1 & H2 & H3).
    destruct (get_fields st b now) as (G1 & G2 & G3).
    rewrite H1, H2, H3. auto.
Qed.

(** *** The claims *)

(** C1 (as amended).  For every body whose length exceeds the maximum
    cacheable size, [get] reports not-found whatever the cache holds, and
    leaves the whole state as it was: no lookup, no deletion, and no
    counter moves, so [stats] returns what it returned before -- the
    outcome is not counted as a miss. *)
Theorem parse_cache_get_oversized_untouched st b now :
  ParseCache.MAX_CACHEABLE_SIZE < ParseCache.body_length b ->
  get st b now = (None, st)
  /\ ParseCache.stats (snd (get st b now)) = ParseCache.stats st.
Proof.
  intros H. rewrite get_oversized by assumption. auto.
Qed.

(** C3.  For every body of length at most the maximum cacheable size and
    every value [v], with a positive TTL and a clock that has not passed
    the expiry of the entry, [set] followed by [get] of the same body
    returns [v] (and counts a hit). *)
Theorem parse_cache_round_trip st b v now now' :
  ParseCache.body_length b <= ParseCache.MAX_CACHEABLE_SIZE ->
  (0 < ParseCache.ttl st)%Z ->
  (now' <= now + ParseCache.ttl st)%Z ->
  get (set st b v now) b now'
  = (Some v, ParseCache.incr_hits (set st b v now)).
Proof.
  intros Hlen _ Hclock.
  destruct (get_cases (set st b v now) b now' Hlen)
    as [[Hnone _]|[(e & He & Hexp & _)|(e & He & _ & ->)]].
  - exfalso. revert Hnone. unfold ParseCache.set.
    destruct (Nat.ltb_spec ParseCache.MAX_CACHEABLE_SIZE (ParseCache.body_length b));
      [lia|].
    simpl. now rewrite jsmap_get_set_same.
  - exfalso. revert He. unfold ParseCache.set.
    destruct (Nat.ltb_spec ParseCache.MAX_CACHEABLE_SIZE (ParseCache.body_length b));
      [lia|].
    simpl. rewrite jsmap_get_set_same. intros [= <-]. simpl in Hexp.
    destruct (evict_if_full_fields st) as [Ht _]. rewrite Ht in Hexp. lia.
  - revert He. unfold ParseCache.set at 1.
    destruct (Nat.ltb_spec ParseCache.MAX_CACHEABLE_SIZE (ParseCache.body_length b));
      [lia|].
    simpl. rewrite jsmap_get_set_same. now intros [= <-].
Qed.

(** C2 (as amended).  In every state a cache created with [maxSize >= 1]
    reaches by any sequence of [get], [set], [cleanup] and [clear], the
    entry count is at most [maxSize].  When such a cache holds [maxSize]
    entries, whatever reads were made since without an entry expiring, a
    [set] of a body that passes the size gate removes exactly the head of
    the insertion order, keeps every other entry in its place, counts one
    eviction and stores the new entry in what is left.  A [set] of a body
    that does not pass the size gate changes nothing. *)
Theorem parse_cache_bounded_fifo (ttl0 maxSize0 : Z) (ops : list (ParseCache.op V))
        (reads : list (ParseCache.body * Z)) b v now :
  (1 <= maxSize0)%Z ->
  let st := run ops (ParseCache.new ttl0 maxSize0) in
  let st1 := run (map read_op reads) st in
  (Z.of_nat (csize st) <= maxSize0)%Z
  /\ (Z.of_nat (csize st1) = maxSize0 ->
      ParseCache.body_length b <= ParseCache.MAX_CACHEABLE_SIZE ->
      exists k0 e0 rest,
        ParseCache.cache st = (k0, e0) :: rest
        /\ ~ In k0 (JSMap.keys rest)
        /\ ParseCache.cache (set st1 b v now)
           = JSMap.set (key b) (ParseCache.mkEntry v (now + ttl0)%Z) rest
        /\ ParseCache.evictions (set st1 b v now) = S (ParseCache.evictions st)
        /\ (Z.of_nat (csize (set st1 b v now)) <= maxSize0)%Z)
  /\ (ParseCache.MAX_CACHEABLE_SIZE < ParseCache.body_length b ->
      set st1 b v now = st1).
Proof.
  intros Hpos st st1.
  assert (Hnew : JSMap.wf (ParseCache.cache (ParseCache.new (V:=V) ttl0 maxSize0)))
    by constructor.
  destruct (run_invariant ops (ParseCache.new ttl0 maxSize0) Hnew Hpos)
    as (Hwf & Hle & Hm & Ht); [simpl; lia|].
  fold st in Hwf, Hle, Hm, Ht. simpl in Hle, Hm, Ht.
  split; [exact Hle|]. split; [|apply set_oversized]. intros Hfull Hlen.
  destruct (reads_size_le reads st Hwf) as [Hwf1 Hle1]. fold st1 in Hwf1, Hle1.
  assert (Hsz : csize st1 = csize st) by lia.
  pose proof (reads_keep_order reads st Hwf Hsz) as Hcache. fold st1 in Hcache.
  destruct (reads_fields reads st) as (He1 & Hm1 & Ht1). fold st1 in He1, Hm1, Ht1.
  destruct (ParseCache.cache st) as [|[k0 e0] rest] eqn:Hc.
  - unfold JSMap.size in Hsz, Hfull. rewrite Hcache in Hfull. simpl in Hfull. lia.
  - exists k0, e0, rest.
    assert (Hfull1 : (ParseCache.maxSize st1 <= Z.of_nat (csize st1))%Z) by lia.
    destruct (set_at_capacity st1 b v now k0 e0 rest Hwf1 Hlen Hfull1 Hcache)
      as [Hs He].
    rewrite Ht1, Ht in Hs. rewrite He1 in He.
    split; [reflexivity|]. split.
    + unfold JSMap.wf in Hwf. simpl in Hwf. now inversion Hwf.
    + repeat split; auto.
      pose proof (set_size_bound st1 b v now) as Hb.
      rewrite Hm1, Hm in Hb. apply Hb; lia.
Qed.


(** C4.  [get] never returns an entry whose expiry has passed: a hit
    comes from an entry under the body's key whose expiry is not before the
    clock.  When the lookup finds an entry whose expiry has passed, [get]
    deletes it, counts a miss and returns not-found.  [cleanup] keeps the
    entries whose expiry has not passed, in their order, deletes all the
    others and returns how many it deleted. *)
Theorem parse_cache_expiry st b now :
  (forall v st', get st b now = (Some v, st') ->
     exists e, JSMap.get (key b) (ParseCache.cache st) = Some e
               /\ ParseCache.value e = v
               /\ (now <= ParseCache.expiresAt e)%Z)
  /\ (forall e,
        ParseCache.body_length b <= ParseCache.MAX_CACHEABLE_SIZE ->
        JSMap.get (key b) (ParseCache.cache st) = Some e ->
        (ParseCache.expiresAt e < now)%Z ->
        let st' := snd (get st b now) in
        fst (get st b now) = None
        /\ ParseCache.cache st' = JSMap.delete (key b) (ParseCache.cache st)
        /\ JSMap.get (key b) (ParseCache.cache st') = None
        /\ ParseCache.misses st' = S (ParseCache.misses st)
        /\ ParseCache.hits st' = ParseCache.hits st)
  /\ (JSMap.wf (ParseCache.cache st) ->
      let n := fst (ParseCache.cleanup st now) in
      let st' := snd (ParseCache.cleanup st now) in
      ParseCache.cache st'
      = filter (fun p => negb (ParseCache.expired now (snd p))) (ParseCache.cache st)
      /\ (forall k e, In (k, e) (ParseCache.cache st') ->
            (now <= ParseCache.expiresAt e)%Z)
      /\ n = List.length
               (filter (fun p => ParseCache.expired now (snd p)) (ParseCache.cache st))
      /\ n + csize st' = csize st).
Proof.
  split; [|split].
  - intros v st' Hget.
    destruct (Nat.ltb_spec ParseCache.MAX_CACHEABLE_SIZE (ParseCache.body_length b))
      as [Hbig|Hok].
    + rewrite get_oversized in Hget by assumption. discriminate.
    + destruct (get_cases st b now Hok)
        as [[_ E]|[(e & _ & _ & E)|(e & He & Hlive & E)]];
        rewrite E in Hget; try discriminate.
      exists e. inversion Hget. auto.
  - intros e Hok He Hexp.
    destruct (get_cases st b now Hok)
      as [[Hn _]|[(e' & He' & _ & E)|(e' & He' & Hlive & _)]].
    + congruence.
    + rewrite E. simpl. repeat split; auto. apply jsmap_get_delete_same.
    + assert (e' = e) by congruence. subst. lia.
  - intros Hwf. rewrite cleanup_spec by assumption. simpl.
    repeat split.
    + intros k e Hin. apply filter_In in Hin. destruct Hin as [_ Hlive].
      unfold ParseCache.expired in Hlive. simpl in Hlive.
      destruct (Z.ltb_spec (ParseCache.expiresAt e) now); [discriminate|lia].
    + apply filter_length.
Qed.

End ParseCacheFacts.

(** *** The claims on concrete caches *)

Lemma full2_wf : JSMap.wf (ParseCache.cache Samples.full2).
Proof.
  vm_compute. repeat constructor; simpl; intuition discriminate.
Qed.

(** C1 as stated fails: a [get] of an oversized body on a new cache
    reports not-found and the miss counter of [stats] stays at 0. *)
Lemma parse_cache_get_oversized_counts_no_miss :
  let st := ParseCache.new_default (V := nat) in
  let r := Samples.get st Samples.oversized 0%Z in
  ParseCache.MAX_CACHEABLE_SIZE < ParseCache.body_length Samples.oversized
  /\ fst r = None
  /\ ParseCache.stat_misses (ParseCache.stats (snd r))
     <> S (ParseCache.stat_misses (ParseCache.stats st)).
Proof.
  split; [|split].
  - apply Nat.ltb_lt. vm_compute. reflexivity.
  - vm_compute. reflexivity.
  - vm_compute. discriminate.
Qed.

Lemma parse_cache_get_oversized_untouched_witness :
  Samples.get ParseCache.new_default Samples.oversized 0%Z
  = (None, ParseCache.new_default)
  /\ ParseCache.stats (snd (Samples.get ParseCache.new_default Samples.oversized 0%Z))
     = ParseCache.stats (ParseCache.new_default (V := nat)).
Proof.
  unfold Samples.get.
  apply (parse_cache_get_oversized_untouched
           Samples.toy_digest string_of_list_byte).
  apply Nat.ltb_lt. vm_compute. reflexivity.
Defined.

(** C2 as stated fails in two places.  A cache created with [maxSize = 0]
    holds [maxSize] entries when it is empty; a [set] then evicts nothing,
    counts an eviction and leaves one entry, more than the maximum.  And on
    a full cache a [set] of an oversized body evicts nothing and counts
    nothing. *)
Lemma parse_cache_bound_needs_room_and_gate :
  let st0 := ParseCache.new (V := nat) 1000%Z 0%Z in
  let st := Samples.set st0 Samples.body_a 1 0%Z in
  (Z.of_nat (JSMap.size (ParseCache.cache st0)) = ParseCache.maxSize st0
   /\ JSMap.size (ParseCache.cache st) = S (JSMap.size (ParseCache.cache st0))
   /\ (ParseCache.maxSize st < Z.of_nat (JSMap.size (ParseCache.cache st)))%Z
   /\ ParseCache.evictions st = 1)
  /\ (Z.of_nat (JSMap.size (ParseCache.cache Samples.full2))
      = ParseCache.maxSize Samples.full2
      /\ Samples.set Samples.full2 Samples.oversized 3 0%Z = Samples.full2).
Proof.
  vm_compute. intuition congruence.
Qed.

Lemma parse_cache_bounded_fifo_witness :
  let st := Samples.full2 in
  let st1 := snd (Samples.get st Samples.body_a 5%Z) in
  exists k0 e0 rest,
    ParseCache.cache st = (k0, e0) :: rest
    /\ ~ In k0 (JSMap.keys rest)
    /\ ParseCache.cache (Samples.set st1 Samples.body_c 3 10%Z)
       = JSMap.set (Samples.key Samples.body_c)
                   (ParseCache.mkEntry 3 (10 + 1000)%Z) rest
    /\ ParseCache.evictions (Samples.set st1 Samples.body_c 3 10%Z)
       = S (ParseCache.evictions st)
    /\ (Z.of_nat (JSMap.size (ParseCache.cache (Samples.set st1 Samples.body_c 3 10%Z)))
        <= 2)%Z.
Proof.
  assert (Hroom : (1 <= 2)%Z) by lia.
  destruct (parse_cache_bounded_fifo
              Samples.toy_digest string_of_list_byte 1000%Z 2%Z
              [ParseCache.OpSet Samples.body_a 1 0%Z;
               ParseCache.OpSet Samples.body_b 2 0%Z]
              [(Samples.body_a, 5%Z)] Samples.body_c 3 10%Z Hroom)
    as (_ & H & _).
  apply H.
  - vm_compute. reflexivity.
  - apply Nat.leb_le. vm_compute. reflexivity.
Defined.

(** The oldest entry is read just before the insertion that overflows the
    cache, and is evicted all the same: the order is that of insertion, not
    of access. *)
Example parse_cache_fifo_not_lru :
  let read := Samples.get Samples.full2 Samples.body_a 5%Z in
  let st' := Samples.set (snd read) Samples.body_c 3 10%Z in
  fst read = Some 1
  /\ JSMap.keys (ParseCache.cache Samples.full2) = ["a"; "b"]%string
  /\ JSMap.keys (ParseCache.cache st') = ["b"; "c"]%string
  /\ ParseCache.evictions st' = 1
  /\ fst (Samples.get st' Samples.body_a 11%Z) = None.
Proof. vm_compute. repeat split. Qed.

Lemma parse_cache_round_trip_witness :
  let st := ParseCache.new (V := nat) 1000%Z 2%Z in
  Samples.get (Samples.set st Samples.body_a 7 0%Z) Samples.body_a 10%Z
  = (Some 7, ParseCache.incr_hits (Samples.set st Samples.body_a 7 0%Z)).
Proof.
  unfold Samples.get, Samples.set.
  apply (parse_cache_round_trip Samples.toy_digest string_of_list_byte).
  - apply Nat.leb_le. vm_compute. reflexivity.
  - reflexivity.
  - simpl. lia.
Defined.


Lemma parse_cache_expiry_witness :
  (exists e, JSMap.get (Samples.key Samples.body_a) (ParseCache.cache Samples.full2)
             = Some e
             /\ ParseCache.value e = 1 /\ (500 <= ParseCache.expiresAt e)%Z)
  /\ (fst (Samples.get Samples.full2 Samples.body_a 2000%Z) = None
      /\ ParseCache.misses (snd (Samples.get Samples.full2 Samples.body_a 2000%Z))
         = S (ParseCache.misses Samples.full2))
  /\ (fst (Samples.cleanup Samples.full2 2000%Z) = 2
      /\ ParseCache.cache (snd (Samples.cleanup Samples.full2 2000%Z)) = []).
Proof.
  destruct (parse_cache_expiry Samples.toy_digest string_of_list_byte
              Samples.full2 Samples.body_a 500%Z) as (Hhit & _ & _).
  destruct (parse_cache_expiry Samples.toy_digest string_of_list_byte
              Samples.full2 Samples.body_a 2000%Z) as (_ & Hlazy & Hsweep).
  split; [|split].
  - eapply Hhit. vm_compute. reflexivity.
  - destruct (Hlazy (ParseCache.mkEntry 1 1000%Z)) as (Hn & _ & _ & Hm & _).
    + apply Nat.leb_le. vm_compute. reflexivity.
    + vm_compute. reflexivity.
    + reflexivity.
    + split; assumption.
  - destruct (Hsweep full2_wf) as (Hc & _ & Hn & _).
    split.
    + unfold Samples.cleanup. rewrite Hn. vm_compute. reflexivity.
    + unfold Samples.cleanup. rewrite Hc. vm_compute. reflexivity.
Defined.

(** ** The buffer pool *)

#[global] Arguments BufferPool.acquire : simpl never.
#[global] Arguments BufferPool.release : simpl never.

Section BufferPoolFacts.
Import BufferPool.

Implicit Types (h : heap) (bp : BufferPool.t) (buf : Buffer) (w : world).

(** *** Memory *)

Lemma bytes_zeroed h buf :
  zeroed h buf -> bytes h buf = repeat x00 (length buf).
Proof.
  intros Hz. unfold bytes.
  rewrite <- (length_seq (length buf) 0) at 2.
  rewrite <- map_const with (l := seq 0 (length buf)).
  apply map_ext_in. intros i Hi. apply in_seq in Hi. apply Hz. lia.
Qed.

Lemma covers_self buf i :
  i < length buf -> covers buf (block buf) (offset buf + i) = true.
Proof.
  intros Hi. unfold covers.
  rewrite Nat.eqb_refl. simpl.
  apply andb_true_intro. split.
  - apply Nat.leb_le. lia.
  - apply Nat.ltb_lt. lia.
Qed.

Lemma fill_zeroed_self h buf : zeroed (fill h buf x00) buf.
Proof.
  intros i Hi. unfold read, fill. simpl. now rewrite covers_self.
Qed.

(** Filling with zeros cannot spoil a zeroed view, overlapping or not. *)
Lemma fill_keeps_zeroed h buf buf' :
  zeroed h buf' -> zeroed (fill h buf x00) buf'.
Proof.
  intros Hz i Hi. unfold read, fill. simpl.
  destruct (covers buf _ _); auto. now apply Hz.
Qed.

Lemma alloc_keeps_zeroed h n buf' :
  zeroed h buf' -> zeroed (snd (allocUnsafe h n)) buf'.
Proof. intros Hz i Hi. now apply Hz. Qed.

(** A write into a cell that the view does not cover is not seen through
    the view. *)
Lemma write_keeps_zeroed h buf i v buf' :
  covers buf' (block buf) (offset buf + i) = false ->
  zeroed h buf' -> zeroed (write h buf i v) buf'.
Proof.
  intros Hcov Hz j Hj. unfold write.
  destruct (i <? length buf); [|now apply Hz].
  unfold read. simpl.
  destruct (Nat.eqb_spec (block buf') (block buf)) as [Eb|]; simpl;
    [|now apply Hz].
  destruct (Nat.eqb_spec (offset buf' + j) (offset buf + i)) as [Eo|];
    [|now apply Hz].
  exfalso. rewrite <- Eb, <- Eo, covers_self in Hcov by assumption.
  discriminate.
Qed.

Lemma slice_prefix buf size :
  size <= length buf ->
  block (slice buf 0 size) = block buf
  /\ offset (slice buf 0 size) = offset buf
  /\ length (slice buf 0 size) = size.
Proof.
  intros Hle. unfold slice. simpl.
  rewrite Nat.min_l by assumption. repeat split; lia.
Qed.

Lemma zeroed_prefix h buf size :
  size <= length buf -> zeroed h buf -> zeroed h (slice buf 0 size).
Proof.
  intros Hle Hz i Hi.
  destruct (slice_prefix buf size Hle) as (Hb & Ho & Hl).
  unfold read. rewrite Hb, Ho. apply Hz. lia.
Qed.

(** *** The scan and the removal *)

Lemma find_from_spec l size i0 i buf :
  find_from l size i0 = Some (i, buf) ->
  In buf l /\ size <= length buf.
Proof.
  revert i0. induction l as [|b l IH]; intros i0; simpl; [discriminate|].
  destruct (Nat.leb_spec size (length b)).
  - intros [= <- <-]. auto.
  - intros H'. destruct (IH _ H'). auto.
Qed.

(** The scan is first-fit: it stops at the first buffer that is long
    enough, and every buffer before it is too short. *)
Lemma find_from_first_fit l size i0 i buf :
  find_from l size i0 = Some (i, buf) ->
  i0 <= i
  /\ nth_error l (i - i0) = Some buf
  /\ forall j b, j < i - i0 -> nth_error l j = Some b -> length b < size.
Proof.
  revert i0. induction l as [|b0 l IH]; intros i0; simpl; [discriminate|].
  destruct (Nat.leb_spec size (length b0)).
  - intros [= <- <-]. rewrite Nat.sub_diag. repeat split; auto. lia.
  - intros H'. destruct (IH _ H') as (Hle & Hnth & Hbefore).
    split; [lia|].
    replace (i - i0) with (S (i - S i0)) by lia. split; [exact Hnth|].
    intros [|j] b; simpl.
    + now intros _ [= <-].
    + intros Hj. apply Hbefore. lia.
Qed.


Lemma splice1_incl i (l : list Buffer) x : In x (splice1 i l) -> In x l.
Proof.
  unfold splice1. intros H. apply in_app_or in H.
  destruct H as [H|H].
  - rewrite <- (firstn_skipn i l). apply in_or_app. now left.
  - rewrite <- (firstn_skipn (S i) l). apply in_or_app. now right.
Qed.

Lemma splice1_length i (l : list Buffer) :
  i < List.length l -> S (List.length (splice1 i l)) = List.length l.
Proof.
  intros Hi. unfold splice1.
  rewrite length_app, length_firstn, length_skipn. lia.
Qed.

(** *** The three branches of [acquire] *)

Lemma acquire_cases h bp size : acquire_branch h bp size (acquire h bp size).
Proof.
  unfold acquire.
  destruct (Nat.ltb_spec (POOL_SIZE * 2) size).
  - now apply AcquireBypass.
  - destruct (find_from (pool bp) size 0) as [[i buf]|] eqn:Hf.
    + now apply AcquireHit.
    + now apply AcquireFresh.
Qed.

Lemma acquire_length h bp size :
  size <= length (fst (fst (acquire h bp size))).
Proof.
  destruct (acquire_cases h bp size) as [Hbig|i buf Hle Hf|Hle Hf]; simpl.
  - lia.
  - apply find_from_spec in Hf. destruct Hf as [_ Hfit].
    destruct (Nat.eqb_spec (length buf) size); [lia|].
    destruct (slice_prefix buf size Hfit) as (_ & _ & ->). lia.
  - lia.
Qed.

(** *** The idle buffers stay zeroed *)

Lemma idle_false_covers bp b i buf :
  idle bp b i = false -> In buf (pool bp) -> covers buf b i = false.
Proof.
  unfold idle. intros Hidle Hin.
  destruct (covers buf b i) eqn:Hc; auto.
  assert (existsb (fun buf => covers buf b i) (pool bp) = true)
    by (apply existsb_exists; eauto).
  congruence.
Qed.

Lemma acquire_keeps_zeroed h bp size :
  pool_zeroed (h, bp) ->
  pool_zeroed (snd (fst (acquire h bp size)), snd (acquire h bp size)).
Proof.
  unfold pool_zeroed. simpl. intros Hz.
  destruct (acquire_cases h bp size) as [Hbig|i buf Hle Hf|Hle Hf]; simpl.
  - exact Hz.
  - rewrite Forall_forall in *. intros x Hx. apply Hz. eauto using splice1_incl.
  - exact Hz.
Qed.

Lemma release_keeps_zeroed h bp buf :
  pool_zeroed (h, bp) -> pool_zeroed (release h bp buf).
Proof.
  unfold pool_zeroed, release. simpl. intros Hz.
  destruct (_ && _); simpl; auto.
  apply Forall_app. split.
  - rewrite Forall_forall in *. intros x Hx.
    apply fill_keeps_zeroed. auto.
  - repeat constructor. apply fill_zeroed_self.
Qed.

Lemma step_keeps_zeroed w e w' :
  step w e = Some w' -> pool_zeroed w -> pool_zeroed w'.
Proof.
  destruct w as [h bp]. destruct e as [size|buf| |buf i v]; simpl.
  - pose proof (acquire_keeps_zeroed h bp size) as Hk.
    destruct (acquire h bp size) as [[b h1] bp1]. simpl in Hk.
    intros [= <-]. exact Hk.
  - intros [= <-]. apply release_keeps_zeroed.
  - intros [= <-] _. constructor.
  - destruct (Nat.ltb_spec i (length buf)) as [Hi|Hi]; simpl.
    + destruct (idle bp (block buf) (offset buf + i)) eqn:Hidle; [discriminate|].
      intros [= <-]. unfold pool_zeroed. simpl.
      rewrite !Forall_forall. intros Hz x Hx.
      apply write_keeps_zeroed; eauto using idle_false_covers.
    + intros [= <-]. unfold write.
      destruct (Nat.ltb_spec i (length buf)); [lia|]. auto.
Qed.

Lemma run_keeps_zeroed es w w' :
  run es w = Some w' -> pool_zeroed w -> pool_zeroed w'.
Proof.
  revert w. induction es as [|e es IH]; intros w; simpl.
  - now intros [= <-].
  - destruct (step w e) as [w1|] eqn:Hs; [|discriminate].
    eauto using step_keeps_zeroed.
Qed.

(** *** Where the idle buffers come from *)



(** An acquire served from the idle set returns the first idle buffer
    that fits, or its prefix of the requested size, and its bytes are what
    the memory holds there. *)
Lemma acquire_hit h bp size :
  hits (snd (acquire h bp size)) = S (hits bp) ->
  exists i idle_buf,
    find_from (pool bp) size 0 = Some (i, idle_buf)
    /\ block (fst (fst (acquire h bp size))) = block idle_buf
    /\ offset (fst (fst (acquire h bp size))) = offset idle_buf
    /\ length (fst (fst (acquire h bp size))) = size
    /\ snd (fst (acquire h bp size)) = h.
Proof.
  destruct (acquire_cases h bp size) as [Hbig|i buf Hle Hf|Hle Hf]; simpl;
    try lia.
  intros _. exists i, buf. split; [exact Hf|].
  apply find_from_spec in Hf. destruct Hf as [_ Hfit].
  destruct (Nat.eqb_spec (length buf) size); auto.
  destruct (slice_prefix buf size Hfit) as (-> & -> & ->). auto.
Qed.

Lemma acquire_hit_zeroed h bp size :
  pool_zeroed (h, bp) ->
  hits (snd (acquire h bp size)) = S (hits bp) ->
  bytes (snd (fst (acquire h bp size))) (fst (fst (acquire h bp size)))
  = repeat x00 size.
Proof.
  intros Hz Hhit.
  destruct (acquire_hit h bp size Hhit) as (i & idle_buf & Hf & Hb & Ho & Hl & ->).
  apply find_from_spec in Hf. destruct Hf as [Hin Hfit].
  unfold pool_zeroed in Hz. rewrite Forall_forall in Hz. simpl in Hz.
  rewrite <- Hl at 2. apply bytes_zeroed.
  intros j Hj. unfold read. rewrite Hb, Ho. apply (Hz _ Hin). lia.
Qed.

(** *** The claims *)


(** Two histories that differ in what the clients wrote, or in anything
    else, hand out the same bytes when each serves a request of the same
    size from its idle set. *)
Corollary buffer_pool_two_runs_agree es1 es2 h1 h2 w1 w2 size :
  run es1 (h1, new) = Some w1 ->
  run es2 (h2, new) = Some w2 ->
  hits (snd (acquire (fst w1) (snd w1) size)) = S (hits (snd w1)) ->
  hits (snd (acquire (fst w2) (snd w2) size)) = S (hits (snd w2)) ->
  bytes (snd (fst (acquire (fst w1) (snd w1) size)))
        (fst (fst (acquire (fst w1) (snd w1) size)))
  = bytes (snd (fst (acquire (fst w2) (snd w2) size)))
          (fst (fst (acquire (fst w2) (snd w2) size))).
Proof.
  intros R1 R2 H1 H2.
  destruct w1 as [g1 p1], w2 as [g2 p2]. simpl in *.
  rewrite !acquire_hit_zeroed; auto.
  - apply (run_keeps_zeroed _ _ _ R2). constructor.
  - apply (run_keeps_zeroed _ _ _ R1). constructor.
Qed.


End BufferPoolFacts.

(** *** The claims on a concrete history *)

(** Before its release the buffer of the history holds what the handler
    wrote and the stale bytes of the memory; after the release it is idle
    in the pool and wiped. *)
Example buffer_pool_release_wipes :
  let before :=
    BufferPool.run (firstn 3 Samples.history)
                   (Samples.stale_heap, BufferPool.new) in
  option_map (fun w => firstn 5 (BufferPool.bytes (fst w) Samples.first_buffer))
             before
  = Some [xff; xff; xff; x53; xff]
  /\ BufferPool.pool (snd Samples.after_history) = [Samples.first_buffer]
  /\ firstn 5 (BufferPool.bytes (fst Samples.after_history) Samples.first_buffer)
     = [x00; x00; x00; x00; x00].
Proof. vm_compute. repeat split. Qed.


(** ** The content-type cache *)

#[global] Arguments ContentTypeCache.parse : simpl never.

Section ContentTypeCacheFacts.
Context {E : Type}.

Local Abbreviation parser_fn := (ContentTypeCache.parser_fn E).
Local Abbreviation parse := (@ContentTypeCache.parse E).
Local Abbreviation run := (@ContentTypeCache.run E).
Local Abbreviation step := (@ContentTypeCache.step E).
Local Abbreviation COMMON_TYPES := ContentTypeCache.COMMON_TYPES.
Local Abbreviation MAX_CACHE_SIZE := ContentTypeCache.MAX_CACHE_SIZE.

Implicit Types (st : ContentTypeCache.t) (header : string) (parser : parser_fn).

(** *** The paths through [parse] *)

Lemma parse_hit st header parser c :
  JSMap.get header (ContentTypeCache.cache st) = Some c ->
  parse header parser st
  = (ContentTypeCache.Returned c, ContentTypeCache.incr_hits st).
Proof.
  intros H. unfold ContentTypeCache.parse, ContentTypeCache.bind,
    ContentTypeCache.gets. now rewrite H.
Qed.

Lemma parse_miss_thrown st header parser e :
  JSMap.get header (ContentTypeCache.cache st) = None ->
  parser header = ContentTypeCache.Thrown e ->
  parse header parser st
  = (ContentTypeCache.Thrown e, ContentTypeCache.incr_misses st).
Proof.
  intros H Hp. unfold ContentTypeCache.parse, ContentTypeCache.bind,
    ContentTypeCache.gets, ContentTypeCache.modify, ContentTypeCache.call.
  now rewrite H, Hp.
Qed.

Lemma parse_miss_returned st header parser parsed :
  JSMap.get header (ContentTypeCache.cache st) = None ->
  parser header = ContentTypeCache.Returned parsed ->
  parse header parser st
  = (ContentTypeCache.Returned parsed,
     if JSMap.size (ContentTypeCache.cache st) <? MAX_CACHE_SIZE
     then ContentTypeCache.with_cache
            (JSMap.set header parsed (ContentTypeCache.cache st))
            (ContentTypeCache.incr_misses st)
     else ContentTypeCache.incr_misses st).
Proof.
  intros H Hp. unfold ContentTypeCache.parse, ContentTypeCache.bind,
    ContentTypeCache.gets, ContentTypeCache.modify, ContentTypeCache.call,
    ContentTypeCache.ret.
  rewrite H, Hp. simpl.
  now destruct (JSMap.size (ContentTypeCache.cache st) <? MAX_CACHE_SIZE).
Qed.

(** On a header that is not cached the miss is counted whatever the
    parser does. *)
Lemma parse_miss_counted st header parser :
  JSMap.get header (ContentTypeCache.cache st) = None ->
  ContentTypeCache.misses (snd (parse header parser st))
  = S (ContentTypeCache.misses st)
  /\ ContentTypeCache.hits (snd (parse header parser st))
     = ContentTypeCache.hits st.
Proof.
  intros H. destruct (parser header) as [parsed|e] eqn:Hp.
  - rewrite (parse_miss_returned _ _ _ _ H Hp). simpl.
    now destruct (_ <? _).
  - now rewrite (parse_miss_thrown _ _ _ _ H Hp).
Qed.

(** *** The baseline and the entries added to it *)

Lemma jsmap_get_app {V} k (m1 m2 : JSMap.t V) :
  JSMap.get k (m1 ++ m2)
  = match JSMap.get k m1 with
    | Some v => Some v
    | None => JSMap.get k m2
    end.
Proof.
  induction m1 as [|[k' v'] m1 IH]; simpl; auto.
  now destruct (String.eqb k k').
Qed.

Lemma common_types_get header c :
  In (header, c) COMMON_TYPES -> JSMap.get header COMMON_TYPES = Some c.
Proof.
  simpl. intros H.
  repeat (destruct H as [H|H]; [inversion H; subst; reflexivity|]).
  contradiction.
Qed.

Lemma seeded_new : ContentTypeCache.seeded ContentTypeCache.new.
Proof.
  exists []. split; [symmetry; apply app_nil_r|].
  apply Nat.leb_le. reflexivity.
Qed.

Lemma seeded_step st o :
  ContentTypeCache.seeded st -> ContentTypeCache.seeded (step st o).
Proof.
  intros (dyn & Hc & Hlen). destruct o as [header parser|]; simpl.
  - destruct (JSMap.get header (ContentTypeCache.cache st)) as [c|] eqn:Hg.
    + rewrite (parse_hit _ _ _ _ Hg). exists dyn. auto.
    + destruct (parser header) as [parsed|e] eqn:Hp.
      * rewrite (parse_miss_returned _ _ _ _ Hg Hp). simpl.
        destruct (Nat.ltb_spec (JSMap.size (ContentTypeCache.cache st)) MAX_CACHE_SIZE)
          as [Hroom|Hfull]; simpl.
        -- exists (dyn ++ [(header, parsed)]). split.
           ++ rewrite jsmap_set_fresh by assumption. rewrite Hc.
              now rewrite app_assoc.
           ++ unfold JSMap.size in Hroom. rewrite Hc, length_app in Hroom.
              rewrite length_app.
              unfold ContentTypeCache.MAX_CACHE_SIZE in *. simpl in *. lia.
        -- exists dyn. auto.
      * rewrite (parse_miss_thrown _ _ _ _ Hg Hp). exists dyn. auto.
  - apply seeded_new.
Qed.

Lemma seeded_run ops st :
  ContentTypeCache.seeded st -> ContentTypeCache.seeded (run ops st).
Proof.
  revert st. induction ops as [|o ops IH]; intros st Hs; simpl; auto.
  apply IH. now apply seeded_step.
Qed.

(** *** The claims *)

(** C7 (as amended).  After [clear] the cache holds exactly the seeded
    baseline.  In every state reached from a new cache by calls of [parse]
    and [clear], the map is the baseline, each seeded header with its
    seeded value, followed by the entries added since; but the baseline
    counts toward the capacity: baseline and added entries together number
    at most [MAX_CACHE_SIZE], and [parse] stores the result of a miss if and
    only if the whole map holds fewer than [MAX_CACHE_SIZE] entries. *)
Theorem content_type_cache_baseline_counts (ops : list (ContentTypeCache.op E)) :
  let st := run ops ContentTypeCache.new in
  ContentTypeCache.cache (ContentTypeCache.clear st) = COMMON_TYPES
  /\ (exists dyn,
        ContentTypeCache.cache st = COMMON_TYPES ++ dyn
        /\ List.length COMMON_TYPES + List.length dyn <= MAX_CACHE_SIZE)
  /\ (forall header c,
        In (header, c) COMMON_TYPES ->
        JSMap.get header (ContentTypeCache.cache st) = Some c)
  /\ (forall header parser parsed,
        JSMap.get header (ContentTypeCache.cache st) = None ->
        parser header = ContentTypeCache.Returned parsed ->
        JSMap.get header (ContentTypeCache.cache (snd (parse header parser st)))
        = if JSMap.size (ContentTypeCache.cache st) <? MAX_CACHE_SIZE
          then Some parsed else None).
Proof.
  intros st.
  pose proof (seeded_run ops _ seeded_new) as (dyn & Hc & Hlen). fold st in Hc.
  split; [reflexivity|]. split; [eauto|]. split.
  - intros header c Hin. rewrite Hc, jsmap_get_app.
    now rewrite (common_types_get _ _ Hin).
  - intros header parser parsed Hg Hp.
    rewrite (parse_miss_returned _ _ _ _ Hg Hp). simpl.
    destruct (_ <? _); simpl; auto using jsmap_get_set_same.
Qed.

(** C8.  When the header is not in the cache and the parser throws on it,
    [parse] ends with that very throw, and the map is what it was: nothing
    is stored for the header, which a later lookup still does not find. *)
Theorem content_type_parse_failure_not_cached st header parser e :
  JSMap.get header (ContentTypeCache.cache st) = None ->
  parser header = ContentTypeCache.Thrown e ->
  fst (parse header parser st) = ContentTypeCache.Thrown e
  /\ ContentTypeCache.cache (snd (parse header parser st))
     = ContentTypeCache.cache st
  /\ JSMap.get header (ContentTypeCache.cache (snd (parse header parser st)))
     = None.
Proof.
  intros Hg Hp. rewrite (parse_miss_thrown _ _ _ _ Hg Hp). simpl. auto.
Qed.

(** C10.  [parse] counts the miss before it calls the parser: on a header
    that is not cached the miss counter goes up by one whatever the parser
    does, and when the parser throws, the state the caller is left with is
    the old one with one more miss, while nothing is returned or stored. *)
Theorem content_type_parse_miss_counted_before_parser st header parser :
  JSMap.get header (ContentTypeCache.cache st) = None ->
  ContentTypeCache.stat_misses (ContentTypeCache.stats (snd (parse header parser st)))
  = S (ContentTypeCache.stat_misses (ContentTypeCache.stats st))
  /\ (forall e,
        parser header = ContentTypeCache.Thrown e ->
        parse header parser st
        = (ContentTypeCache.Thrown e, ContentTypeCache.incr_misses st)).
Proof.
  intros Hg. split.
  - simpl. apply (parse_miss_counted _ _ _ Hg).
  - intros e Hp. now apply parse_miss_thrown.
Qed.

End ContentTypeCacheFacts.

(** *** The claims on concrete caches *)

(** C7 as stated fails: from the cleared cache, 45 distinct new headers
    are parsed with success; the first 44 are stored next to the 6 seeded
    entries, the 45th is not, and the map holds 50 entries, not 6 + 45. *)
Lemma content_type_cache_baseline_uses_capacity :
  let st0 := ContentTypeCache.clear ContentTypeCache.new in
  let st := ContentTypeCache.run (Samples.parse_all (Samples.headers 45)) st0 in
  ContentTypeCache.cache st0 = ContentTypeCache.COMMON_TYPES
  /\ JSMap.size (ContentTypeCache.cache st0) = 6
  /\ JSMap.size (ContentTypeCache.cache st) = 50
  /\ JSMap.size (ContentTypeCache.cache st) <> 6 + 45
  /\ ContentTypeCache.misses st = 45
  /\ JSMap.get (nth 43 (Samples.headers 45) EmptyString) (ContentTypeCache.cache st)
     <> None
  /\ JSMap.get (nth 44 (Samples.headers 45) EmptyString) (ContentTypeCache.cache st)
     = None.
Proof.
  vm_compute. repeat split; discriminate.
Qed.

Lemma content_type_cache_baseline_counts_witness :
  let full := ContentTypeCache.run (Samples.parse_all (Samples.headers 44))
                                   ContentTypeCache.new in
  JSMap.get "x/new"%string
    (ContentTypeCache.cache (snd (ContentTypeCache.parse "x/new" Samples.accept full)))
  = None
  /\ JSMap.get "x/new"%string
       (ContentTypeCache.cache
          (snd (ContentTypeCache.parse "x/new" Samples.accept ContentTypeCache.new)))
     = Some (ContentTypeCache.mkContentType "x/new" []).
Proof.
  split.
  - destruct (content_type_cache_baseline_counts
                (Samples.parse_all (Samples.headers 44)))
      as (_ & _ & _ & Hstore).
    rewrite (Hstore "x/new"%string Samples.accept
                    (ContentTypeCache.mkContentType "x/new" []));
      vm_compute; reflexivity.
  - destruct (content_type_cache_baseline_counts (E := string) [])
      as (_ & _ & _ & Hstore).
    refine (eq_trans (Hstore "x/new"%string Samples.accept
                             (ContentTypeCache.mkContentType "x/new" []) _ _) _);
      vm_compute; reflexivity.
Defined.

Lemma content_type_parse_failure_not_cached_witness :
  let r := ContentTypeCache.parse "bogus" Samples.reject ContentTypeCache.new in
  fst r = ContentTypeCache.Thrown "invalid media type"%string
  /\ ContentTypeCache.cache (snd r) = ContentTypeCache.cache ContentTypeCache.new
  /\ JSMap.get "bogus"%string (ContentTypeCache.cache (snd r)) = None.
Proof.
  apply content_type_parse_failure_not_cached; reflexivity.
Defined.

Lemma content_type_parse_miss_counted_before_parser_witness :
  let r := ContentTypeCache.parse "bogus" Samples.reject ContentTypeCache.new in
  ContentTypeCache.stat_misses (ContentTypeCache.stats (snd r)) = 1
  /\ r = (ContentTypeCache.Thrown "invalid media type"%string,
          ContentTypeCache.incr_misses ContentTypeCache.new).
Proof.
  destruct (content_type_parse_miss_counted_before_parser
              ContentTypeCache.new "bogus"%string Samples.reject)
    as [Hcount Hthrow].
  - reflexivity.
  - split; [exact Hcount|]. now apply Hthrow.
Defined.

(** ** More on the body parse cache *)

Section ParseCacheMore.
Context {V : Type}.
Variable sha256_hex : string -> string.
Variable buffer_toString : list byte -> string.

Local Abbreviation cache_t := (ParseCache.t V).
Local Abbreviation get := (@ParseCache.get V sha256_hex buffer_toString).
Local Abbreviation set := (@ParseCache.set V sha256_hex buffer_toString).
Local Abbreviation key := (ParseCache._generateKey sha256_hex buffer_toString).
Local Abbreviation text := (ParseCache.body_text buffer_toString).
Local Abbreviation run := (@ParseCache.run V sha256_hex buffer_toString).
Local Abbreviation step := (@ParseCache.step V sha256_hex buffer_toString).
Local Abbreviation csize st := (JSMap.size (ParseCache.cache st)).
Local Abbreviation cacheable b :=
  (ParseCache.body_length b <= ParseCache.MAX_CACHEABLE_SIZE).

Implicit Types (st : cache_t) (b : ParseCache.body) (v : V) (now : Z).

(** *** What [set] leaves in the map *)

Lemma set_cache st b v now :
  cacheable b ->
  ParseCache.cache (set st b v now)
  = JSMap.set (key b) (ParseCache.mkEntry v (now + ParseCache.ttl st)%Z)
              (ParseCache.cache (ParseCache.evict_if_full st)).
Proof.
  intros Hlen. unfold ParseCache.set.
  destruct (Nat.ltb_spec ParseCache.MAX_CACHEABLE_SIZE (ParseCache.body_length b));
    [lia|].
  simpl. destruct (evict_if_full_fields st) as [-> _]. reflexivity.
Qed.

Lemma set_lookup st b v now :
  cacheable b ->
  JSMap.get (key b) (ParseCache.cache (set st b v now))
  = Some (ParseCache.mkEntry v (now + ParseCache.ttl st)%Z).
Proof.
  intros Hlen. rewrite set_cache by assumption. apply jsmap_get_set_same.
Qed.

Lemma evict_if_full_room st :
  (Z.of_nat (csize st) < ParseCache.maxSize st)%Z ->
  ParseCache.evict_if_full st = st.
Proof.
  intros Hroom. unfold ParseCache.evict_if_full.
  destruct (Z.leb_spec (ParseCache.maxSize st) (Z.of_nat (csize st))); [lia|].
  reflexivity.
Qed.

Lemma set_counters st b v now :
  ParseCache.hits (set st b v now) = ParseCache.hits st
  /\ ParseCache.misses (set st b v now) = ParseCache.misses st.
Proof.
  unfold ParseCache.set. destruct (_ <? _); simpl; auto.
  unfold ParseCache.evict_if_full. destruct (_ <=? _)%Z; simpl; auto.
Qed.

(** A lookup through a body whose key is that of the body stored. *)
Lemma get_set_same_key st b b' v now now' :
  cacheable b -> cacheable b' ->
  key b' = key b ->
  (now' <= now + ParseCache.ttl st)%Z ->
  get (set st b v now) b' now'
  = (Some v, ParseCache.incr_hits (set st b v now)).
Proof.
  intros Hb Hb' Hk Hclock.
  pose proof (set_lookup st b v now Hb) as Hl. rewrite <- Hk in Hl.
  destruct (get_cases sha256_hex buffer_toString (set st b v now) b' now' Hb')
    as [[Hn _]|[(e & He & Hexp & _)|(e & He & _ & ->)]].
  - congruence.
  - rewrite Hl in He. injection He as <-. simpl in Hexp. lia.
  - rewrite Hl in He. injection He as <-. reflexivity.
Qed.

(** *** The extras on [get] and [set] *)


(** X2.  The cache is keyed by the text of the body, not by its type: what
    was stored under a string is found under a [Buffer] with the same text,
    and the other way round, when the two lengths fall on the same side of
    the 100 that selects the key. *)
Theorem parse_cache_keyed_by_text st b b' v now now' :
  cacheable b -> cacheable b' ->
  text b' = text b ->
  (ParseCache.body_length b' <? 100) = (ParseCache.body_length b <? 100) ->
  (now' <= now + ParseCache.ttl st)%Z ->
  fst (get (set st b v now) b' now') = Some v.
Proof.
  intros Hb Hb' Ht Hside Hclock.
  rewrite get_set_same_key; auto.
  unfold ParseCache._generateKey. now rewrite Ht, Hside.
Qed.

(** X3.  The digest of a long body is itself a key: a body of 100 bytes or
    more is stored under its digest, and a short string that spells this
    digest is looked up under its own content, which is the same key.  So a
    [get] of that string returns what was stored for the long body. *)
Theorem parse_cache_digest_alias st b v now now' :
  100 <= ParseCache.body_length b ->
  cacheable b ->
  String.length (sha256_hex (text b)) < 100 ->
  (now' <= now + ParseCache.ttl st)%Z ->
  fst (get (set st b v now) (ParseCache.BString (sha256_hex (text b))) now')
  = Some v.
Proof.
  intros Hlong Hb Hshort Hclock.
  rewrite get_set_same_key; auto.
  - simpl. unfold ParseCache.MAX_CACHEABLE_SIZE. lia.
  - unfold ParseCache._generateKey. simpl.
    destruct (Nat.ltb_spec (String.length (sha256_hex (text b))) 100); [|lia].
    destruct (Nat.ltb_spec (ParseCache.body_length b) 100); [lia|].
    reflexivity.
Qed.

(** X4.  While the cache has room, a [set] touches one key only: a [get]
    of a body with another key returns what it returned before. *)
Theorem parse_cache_set_frame st b b' v now now' :
  cacheable b ->
  (Z.of_nat (csize st) < ParseCache.maxSize st)%Z ->
  key b' <> key b ->
  fst (get (set st b v now) b' now') = fst (get st b' now')
  /\ ParseCache.evictions (set st b v now) = ParseCache.evictions st.
Proof.
  intros Hb Hroom Hk.
  assert (Hl : JSMap.get (key b') (ParseCache.cache (set st b v now))
               = JSMap.get (key b') (ParseCache.cache st)).
  { rewrite set_cache, evict_if_full_room by assumption.
    apply jsmap_get_set_other. congruence. }
  split.
  - unfold ParseCache.get. destruct (_ <? _); auto.
    rewrite Hl. clear Hl.
    destruct (JSMap.get (key b') (ParseCache.cache st)) as [e|]; auto.
    destruct (ParseCache.expired now' e); auto.
  - unfold ParseCache.set.
    destruct (Nat.ltb_spec ParseCache.MAX_CACHEABLE_SIZE (ParseCache.body_length b));
      [lia|].
    simpl. now rewrite evict_if_full_room.
Qed.

(** X5.  Storing again under a key that is in the cache, while the cache
    has room, refreshes the value and the expiry and nothing else: the
    entry keeps its place in the eviction order, the size and the eviction
    counter stay. *)
Theorem parse_cache_overwrite_keeps_place st b v now :
  cacheable b ->
  (Z.of_nat (csize st) < ParseCache.maxSize st)%Z ->
  In (key b) (JSMap.keys (ParseCache.cache st)) ->
  let st1 := set st b v now in
  JSMap.keys (ParseCache.cache st1) = JSMap.keys (ParseCache.cache st)
  /\ csize st1 = csize st
  /\ ParseCache.evictions st1 = ParseCache.evictions st
  /\ JSMap.get (key b) (ParseCache.cache st1)
     = Some (ParseCache.mkEntry v (now + ParseCache.ttl st)%Z).
Proof.
  intros Hb Hroom Hin st1. unfold st1.
  split; [|split; [|split]].
  - rewrite set_cache, evict_if_full_room by assumption.
    now apply jsmap_set_keys_present.
  - rewrite set_cache, evict_if_full_room by assumption.
    now apply jsmap_size_set_present.
  - unfold ParseCache.set.
    destruct (Nat.ltb_spec ParseCache.MAX_CACHEABLE_SIZE (ParseCache.body_length b));
      [lia|].
    simpl. now rewrite evict_if_full_room.
  - now apply set_lookup.
Qed.

(** X6.  [clear] empties the map and keeps the counters; on a cache with
    [maxSize >= 1] the [set] that follows evicts nothing and leaves the one
    entry it stores. *)
Theorem parse_cache_clear_then_set st b v now :
  cacheable b ->
  (1 <= ParseCache.maxSize st)%Z ->
  let st1 := set (ParseCache.clear st) b v now in
  ParseCache.cache st1
  = [(key b, ParseCache.mkEntry v (now + ParseCache.ttl st)%Z)]
  /\ ParseCache.evictions st1 = ParseCache.evictions st
  /\ ParseCache.hits st1 = ParseCache.hits st
  /\ ParseCache.misses st1 = ParseCache.misses st.
Proof.
  intros Hb Hpos st1. unfold st1.
  assert (Hroom : (Z.of_nat (csize (ParseCache.clear st))
                   < ParseCache.maxSize (ParseCache.clear st))%Z)
    by (simpl; lia).
  destruct (set_counters (ParseCache.clear st) b v now) as [Hh Hm].
  split; [|split; [|split]]; auto.
  - rewrite set_cache, evict_if_full_room by assumption. reflexivity.
  - unfold ParseCache.set.
    destruct (Nat.ltb_spec ParseCache.MAX_CACHEABLE_SIZE (ParseCache.body_length b));
      [lia|].
    simpl. now rewrite evict_if_full_room.
Qed.

(** *** The counters over a sequence of calls *)

Lemma step_counts_lookup st o :
  ParseCache.hits (step st o) + ParseCache.misses (step st o)
  = ParseCache.hits st + ParseCache.misses st
    + (if ParseCache.is_lookup o then 1 else 0).
Proof.
  destruct o as [b now|b v now|now|]; cbn [ParseCache.step ParseCache.is_lookup].
  - destruct (Nat.leb_spec (ParseCache.body_length b) ParseCache.MAX_CACHEABLE_SIZE)
      as [Hok|Hbig].
    + destruct (get_cases sha256_hex buffer_toString st b now Hok)
        as [[_ ->]|[(e & _ & _ & ->)|(e & _ & _ & ->)]]; simpl; lia.
    + rewrite get_oversized by assumption. simpl. lia.
  - destruct (set_counters st b v now) as [-> ->]. lia.
  - simpl. lia.
  - simpl. lia.
Qed.

Lemma run_counts_lookups ops st :
  ParseCache.hits (run ops st) + ParseCache.misses (run ops st)
  = ParseCache.hits st + ParseCache.misses st
    + List.length (filter (@ParseCache.is_lookup V) ops).
Proof.
  revert st. induction ops as [|o ops IH]; intros st.
  - cbn. lia.
  - rewrite run_cons, IH, step_counts_lookup. simpl.
    destruct (ParseCache.is_lookup o); simpl; lia.
Qed.

Lemma step_size_and_evictions st o :
  JSMap.wf (ParseCache.cache st) ->
  (1 <= ParseCache.maxSize st)%Z ->
  csize (step st o) + ParseCache.evictions (step st o)
  <= csize st + ParseCache.evictions st
     + (if ParseCache.is_store o then 1 else 0).
Proof.
  intros Hwf Hpos.
  destruct o as [b now|b v now|now|]; cbn [ParseCache.step ParseCache.is_store].
  - destruct (get_fields sha256_hex buffer_toString st b now) as (_ & _ & ->).
    destruct (get_cache_same_or_smaller sha256_hex buffer_toString st b now Hwf)
      as [->|Hlt]; lia.
  - destruct (Nat.leb_spec (ParseCache.body_length b) ParseCache.MAX_CACHEABLE_SIZE)
      as [Hok|Hbig].
    + rewrite set_cache by assumption.
      unfold ParseCache.set.
      destruct (Nat.ltb_spec ParseCache.MAX_CACHEABLE_SIZE (ParseCache.body_length b));
        [lia|].
      simpl. unfold ParseCache.evict_if_full.
      destruct (Z.leb_spec (ParseCache.maxSize st) (Z.of_nat (csize st))); simpl.
      * match goal with |- context [JSMap.set ?k ?e ?m] =>
          pose proof (jsmap_size_set_le k e m) end.
        pose proof (jsmap_size_delete_first (ParseCache.cache st)). lia.
      * match goal with |- context [JSMap.set ?k ?e ?m] =>
          pose proof (jsmap_size_set_le k e m) end.
        lia.
    + rewrite set_oversized by assumption. lia.
  - pose proof (cleanup_size_le st now Hwf) as Hle.
    change (ParseCache.evictions (snd (ParseCache.cleanup st now)))
      with (ParseCache.evictions st). lia.
  - simpl. lia.
Qed.

(** *** The extras on the counters *)

(** X7.  The hit and miss counters count the lookups: after any sequence
    of calls on a new cache, [hits + misses] is the number of [get] calls
    whose body passed the size gate.  Reads of oversized bodies, writes,
    sweeps and [clear] count nothing there. *)
Theorem parse_cache_counters_count_lookups ttl0 maxSize0 (ops : list (ParseCache.op V)) :
  let st := run ops (ParseCache.new ttl0 maxSize0) in
  ParseCache.stat_hits (ParseCache.stats st)
  + ParseCache.stat_misses (ParseCache.stats st)
  = List.length (filter (@ParseCache.is_lookup V) ops).
Proof.
  intros st. simpl. unfold st. rewrite run_counts_lookups. reflexivity.
Qed.

(** X8.  On a cache created with [maxSize >= 1], the entries held and the
    evictions counted never add up to more than the [set] calls whose body
    passed the size gate: no eviction is counted without a store. *)
Theorem parse_cache_evictions_bounded_by_stores ttl0 maxSize0
        (ops : list (ParseCache.op V)) :
  (1 <= maxSize0)%Z ->
  let st := run ops (ParseCache.new ttl0 maxSize0) in
  csize st + ParseCache.evictions st
  <= List.length (filter (@ParseCache.is_store V) ops).
Proof.
  intros Hpos st.
  enough (Hgen : forall ops st0,
             JSMap.wf (ParseCache.cache st0) ->
             (1 <= ParseCache.maxSize st0)%Z ->
             (Z.of_nat (csize st0) <= ParseCache.maxSize st0)%Z ->
             csize (run ops st0) + ParseCache.evictions (run ops st0)
             <= csize st0 + ParseCache.evictions st0
                + List.length (filter (@ParseCache.is_store V) ops)).
  { specialize (Hgen ops (ParseCache.new ttl0 maxSize0)).
    simpl in Hgen. apply Hgen; try lia. constructor. }
  clear. intros ops. induction ops as [|o ops IH]; intros st0 Hwf Hpos Hle.
  - cbn. lia.
  - rewrite run_cons.
    destruct (step_invariant sha256_hex buffer_toString st0 o Hwf Hpos Hle)
      as (Hwf' & Hle' & Hm & _).
    pose proof (step_size_and_evictions st0 o Hwf Hpos) as Hstep.
    specialize (IH (step st0 o) Hwf').
    rewrite Hm in IH. specialize (IH Hpos Hle').
    simpl. destruct (ParseCache.is_store o); simpl in *; lia.
Qed.

(** *** The sweep *)

Lemma filter_live_twice now now' (m : JSMap.t (ParseCache.entry V)) :
  (now' <= now)%Z ->
  filter (fun p => negb (ParseCache.expired now' (snd p)))
         (filter (fun p => negb (ParseCache.expired now (snd p))) m)
  = filter (fun p => negb (ParseCache.expired now (snd p))) m
  /\ filter (fun p => ParseCache.expired now' (snd p))
            (filter (fun p => negb (ParseCache.expired now (snd p))) m)
     = [].
Proof.
  intros Hle. induction m as [|p m [IH1 IH2]]; simpl; auto.
  destruct (ParseCache.expired now (snd p)) eqn:E; simpl; auto.
  destruct (ParseCache.expired now' (snd p)) eqn:E'; simpl.
  - exfalso. unfold ParseCache.expired in E, E'.
    apply Z.ltb_lt in E'. apply Z.ltb_ge in E. lia.
  - now rewrite IH1.
Qed.

(** X9.  A sweep leaves nothing for a second sweep at the same time or an
    earlier one: the second [cleanup] returns 0 and changes nothing.  A
    sweep moves no counter. *)
Theorem parse_cache_cleanup_idempotent st now now' :
  JSMap.wf (ParseCache.cache st) ->
  (now' <= now)%Z ->
  let st1 := snd (ParseCache.cleanup st now) in
  ParseCache.cleanup st1 now' = (0, st1)
  /\ ParseCache.hits st1 = ParseCache.hits st
  /\ ParseCache.misses st1 = ParseCache.misses st
  /\ ParseCache.evictions st1 = ParseCache.evictions st.
Proof.
  intros Hwf Hle st1.
  pose proof (cleanup_wf st now Hwf) as Hwf1. fold st1 in Hwf1.
  split; [|repeat split].
  rewrite (cleanup_spec st1 now' Hwf1).
  unfold st1. rewrite (cleanup_spec st now Hwf). simpl.
  destruct (filter_live_twice now now' (ParseCache.cache st) Hle) as [-> ->].
  reflexivity.
Qed.

(** X10.  Right after a sweep a read is a plain lookup: a [get] at the time
    of the sweep, or before, finds no expired entry, so it deletes nothing
    and returns the value under the body's key if there is one. *)
Theorem parse_cache_get_after_cleanup st b now now' :
  JSMap.wf (ParseCache.cache st) ->
  cacheable b ->
  (now' <= now)%Z ->
  let st1 := snd (ParseCache.cleanup st now) in
  ParseCache.cache (snd (get st1 b now')) = ParseCache.cache st1
  /\ fst (get st1 b now')
     = option_map (@ParseCache.value V) (JSMap.get (key b) (ParseCache.cache st1)).
Proof.
  intros Hwf Hb Hle st1.
  destruct (get_cases sha256_hex buffer_toString st1 b now' Hb)
    as [[Hn ->]|[(e & He & Hexp & _)|(e & He & _ & ->)]].
  - rewrite Hn. auto.
  - exfalso. apply jsmap_get_in in He. unfold st1 in He.
    rewrite (cleanup_spec st now Hwf) in He. simpl in He.
    apply filter_In in He. destruct He as [_ Hlive].
    unfold ParseCache.expired in Hlive. simpl in Hlive.
    destruct (Z.ltb_spec (ParseCache.expiresAt e) now); [discriminate|lia].
  - rewrite He. auto.
Qed.

End ParseCacheMore.

(** X11.  The hit rate that the three [stats] methods report lies between
    0 and 1, and it is 0 exactly when there is no hit, which covers the
    case of no lookup at all. *)
Theorem stats_hit_rate_range {V} (st : ParseCache.t V) (bp : BufferPool.t)
        (ct : ContentTypeCache.t) :
  let rates :=
    [ParseCache.stat_hitRate (ParseCache.stats st);
     BufferPool.stat_hitRate (BufferPool.stats bp);
     ContentTypeCache.stat_hitRate (ContentTypeCache.stats ct)] in
  Forall (fun r => (0 <= r)%Q /\ (r <= 1)%Q) rates
  /\ ((ParseCache.stat_hitRate (ParseCache.stats st) == 0)%Q
      <-> ParseCache.hits st = 0)
  /\ ((BufferPool.stat_hitRate (BufferPool.stats bp) == 0)%Q
      <-> BufferPool.hits bp = 0)
  /\ ((ContentTypeCache.stat_hitRate (ContentTypeCache.stats ct) == 0)%Q
      <-> ContentTypeCache.hits ct = 0).
Proof.
  assert (Hrange : forall h m, (0 <= hit_rate h m)%Q /\ (hit_rate h m <= 1)%Q).
  { intros h m. unfold hit_rate. destruct (h + m) as [|n] eqn:Hs.
    - split; unfold Qle; simpl; lia.
    - split; unfold Qle; simpl; rewrite ?Zpos_P_of_succ_nat; lia. }
  assert (Hzero : forall h m, (hit_rate h m == 0)%Q <-> h = 0).
  { intros h m. unfold hit_rate. destruct (h + m) as [|n] eqn:Hs.
    - split; [lia|reflexivity].
    - unfold Qeq. simpl. lia. }
  simpl. repeat split; try apply Hrange; try apply Hzero;
    repeat constructor; apply Hrange.
Qed.

(** *** The extras on concrete caches *)

Ltac sample_cache :=
  unfold Samples.get, Samples.set, Samples.cleanup, Samples.run, Samples.key.
Ltac fits_gate := apply Nat.leb_le; vm_compute; reflexivity.


Lemma parse_cache_keyed_by_text_witness :
  fst (Samples.get
         (Samples.set (ParseCache.new 1000%Z 2%Z) Samples.body_a 7 0%Z)
         Samples.buffer_a 10%Z)
  = Some 7.
Proof.
  sample_cache.
  apply (parse_cache_keyed_by_text Samples.toy_digest string_of_list_byte).
  - fits_gate.
  - fits_gate.
  - reflexivity.
  - reflexivity.
  - simpl. lia.
Defined.

Lemma parse_cache_digest_alias_witness :
  let get := @ParseCache.get nat Samples.short_digest string_of_list_byte in
  let set := @ParseCache.set nat Samples.short_digest string_of_list_byte in
  fst (get (set (ParseCache.new 1000%Z 2%Z) Samples.long_body 7 0%Z)
           (ParseCache.BString "#aa") 10%Z)
  = Some 7.
Proof.
  apply (parse_cache_digest_alias Samples.short_digest string_of_list_byte
           (ParseCache.new 1000%Z 2%Z) Samples.long_body 7 0%Z 10%Z).
  - fits_gate.
  - fits_gate.
  - apply Nat.ltb_lt. vm_compute. reflexivity.
  - simpl. lia.
Defined.

Lemma parse_cache_set_frame_witness :
  let st := Samples.set (ParseCache.new 1000%Z 2%Z) Samples.body_a 7 0%Z in
  fst (Samples.get (Samples.set st Samples.body_b 8 1%Z) Samples.body_a 10%Z)
  = fst (Samples.get st Samples.body_a 10%Z)
  /\ ParseCache.evictions (Samples.set st Samples.body_b 8 1%Z)
     = ParseCache.evictions st.
Proof.
  sample_cache.
  apply (parse_cache_set_frame Samples.toy_digest string_of_list_byte).
  - fits_gate.
  - vm_compute. reflexivity.
  - vm_compute. discriminate.
Defined.

Lemma parse_cache_overwrite_keeps_place_witness :
  let st := Samples.set (ParseCache.new 1000%Z 3%Z) Samples.body_a 7 0%Z in
  let st0 := Samples.set st Samples.body_b 8 0%Z in
  let st1 := Samples.set st0 Samples.body_a 9 5%Z in
  JSMap.keys (ParseCache.cache st1) = JSMap.keys (ParseCache.cache st0)
  /\ JSMap.size (ParseCache.cache st1) = JSMap.size (ParseCache.cache st0)
  /\ ParseCache.evictions st1 = ParseCache.evictions st0
  /\ JSMap.get (Samples.key Samples.body_a) (ParseCache.cache st1)
     = Some (ParseCache.mkEntry 9 (5 + ParseCache.ttl st0)%Z).
Proof.
  sample_cache.
  apply (parse_cache_overwrite_keeps_place Samples.toy_digest string_of_list_byte).
  - fits_gate.
  - vm_compute. reflexivity.
  - vm_compute. auto.
Defined.

Lemma parse_cache_clear_then_set_witness :
  let st1 := Samples.set (ParseCache.clear Samples.full2) Samples.body_c 3 10%Z in
  ParseCache.cache st1
  = [(Samples.key Samples.body_c,
      ParseCache.mkEntry 3 (10 + ParseCache.ttl Samples.full2)%Z)]
  /\ ParseCache.evictions st1 = ParseCache.evictions Samples.full2
  /\ ParseCache.hits st1 = ParseCache.hits Samples.full2
  /\ ParseCache.misses st1 = ParseCache.misses Samples.full2.
Proof.
  sample_cache.
  apply (parse_cache_clear_then_set Samples.toy_digest string_of_list_byte).
  - fits_gate.
  - vm_compute. discriminate.
Defined.

Lemma parse_cache_evictions_bounded_by_stores_witness :
  let ops := [ParseCache.OpSet Samples.body_a 1 0%Z;
              ParseCache.OpSet Samples.body_b 2 0%Z;
              ParseCache.OpGet Samples.body_a 5%Z;
              ParseCache.OpSet Samples.oversized 9 6%Z;
              ParseCache.OpSet Samples.body_c 3 10%Z] in
  let st := Samples.run ops (ParseCache.new 1000%Z 2%Z) in
  JSMap.size (ParseCache.cache st) + ParseCache.evictions st
  <= List.length (filter (@ParseCache.is_store nat) ops).
Proof.
  sample_cache.
  apply (parse_cache_evictions_bounded_by_stores
           Samples.toy_digest string_of_list_byte 1000%Z 2%Z).
  lia.
Defined.

Lemma parse_cache_cleanup_idempotent_witness :
  let st1 := snd (Samples.cleanup Samples.full2 2000%Z) in
  Samples.cleanup st1 1500%Z = (0, st1)
  /\ ParseCache.hits st1 = ParseCache.hits Samples.full2
  /\ ParseCache.misses st1 = ParseCache.misses Samples.full2
  /\ ParseCache.evictions st1 = ParseCache.evictions Samples.full2.
Proof.
  sample_cache.
  apply (parse_cache_cleanup_idempotent Samples.full2 2000%Z 1500%Z).
  - exact full2_wf.
  - lia.
Defined.

Lemma parse_cache_get_after_cleanup_witness :
  let st1 := snd (Samples.cleanup Samples.full2 500%Z) in
  ParseCache.cache (snd (Samples.get st1 Samples.body_a 400%Z))
  = ParseCache.cache st1
  /\ fst (Samples.get st1 Samples.body_a 400%Z)
     = option_map (@ParseCache.value nat)
                  (JSMap.get (Samples.key Samples.body_a) (ParseCache.cache st1)).
Proof.
  sample_cache.
  apply (parse_cache_get_after_cleanup Samples.toy_digest string_of_list_byte
           Samples.full2 Samples.body_a 500%Z 400%Z).
  - exact full2_wf.
  - fits_gate.
  - lia.
Defined.

(** ** More on the buffer pool *)

Section BufferPoolMore.
Import BufferPool.

Implicit Types (h : heap) (bp : BufferPool.t) (buf : Buffer) (w : world).

Lemma splice1_length_le i (l : list Buffer) :
  List.length (splice1 i l) <= List.length l.
Proof.
  unfold splice1. rewrite length_app, length_firstn, length_skipn. lia.
Qed.

Lemma release_pooled h bp buf :
  length buf <= POOL_SIZE * 2 ->
  List.length (pool bp) < MAX_POOL_ENTRIES ->
  release h bp buf
  = (fill h buf x00, mk (pool bp ++ [buf]) (hits bp) (misses bp)).
Proof.
  intros Hlen Hroom. unfold release.
  destruct (Nat.leb_spec (length buf) (POOL_SIZE * 2)); [|lia].
  destruct (Nat.ltb_spec (List.length (pool bp)) MAX_POOL_ENTRIES); [|lia].
  reflexivity.
Qed.

Lemma release_discarded h bp buf :
  List.length (pool bp) >= MAX_POOL_ENTRIES \/ POOL_SIZE * 2 < length buf ->
  release h bp buf = (h, bp).
Proof.
  intros Hno. unfold release.
  destruct (Nat.leb_spec (length buf) (POOL_SIZE * 2)); simpl; auto.
  destruct (Nat.ltb_spec (List.length (pool bp)) MAX_POOL_ENTRIES); auto.
  lia.
Qed.

(** What the pool holds stays within the two limits of [release]. *)
Lemma step_keeps_bounds w e w' :
  step w e = Some w' ->
  List.length (pool (snd w)) <= MAX_POOL_ENTRIES
  /\ Forall (fun b => length b <= POOL_SIZE * 2) (pool (snd w)) ->
  List.length (pool (snd w')) <= MAX_POOL_ENTRIES
  /\ Forall (fun b => length b <= POOL_SIZE * 2) (pool (snd w')).
Proof.
  destruct w as [h bp]. destruct e as [size|buf| |buf i v]; simpl.
  - destruct (acquire_cases h bp size) as [Hbig|i b Hle Hf|Hle Hf];
      intros [= <-]; simpl; auto.
    intros [Hn Hall]. split.
    + pose proof (splice1_length_le i (pool bp)). lia.
    + rewrite Forall_forall in *. eauto using splice1_incl.
  - unfold release.
    destruct (Nat.leb_spec (length buf) (POOL_SIZE * 2)); simpl;
      [|intros [= <-]; auto].
    destruct (Nat.ltb_spec (List.length (pool bp)) MAX_POOL_ENTRIES);
      intros [= <-]; simpl; auto.
    intros [Hn Hall]. split.
    + rewrite length_app. simpl. lia.
    + apply Forall_app. auto.
  - intros [= <-]. simpl. split; [lia|constructor].
  - destruct (_ && _); [discriminate|]. intros [= <-]. auto.
Qed.

Lemma step_counts_acquire w e w' :
  step w e = Some w' ->
  hits (snd w') + misses (snd w')
  = hits (snd w) + misses (snd w) + (if is_acquire e then 1 else 0).
Proof.
  destruct w as [h bp]. destruct e as [size|buf| |buf i v]; simpl.
  - destruct (acquire_cases h bp size) as [Hbig|i b Hle Hf|Hle Hf];
      intros [= <-]; simpl; lia.
  - unfold release. destruct (_ && _); intros [= <-]; simpl; lia.
  - intros [= <-]. simpl. lia.
  - destruct (_ && _); [discriminate|]. intros [= <-]. simpl. lia.
Qed.

(** The scan passes over the buffers that are too short. *)
Lemma find_from_skip l l' size i :
  Forall (fun b => length b < size) l ->
  find_from (l ++ l') size i = find_from l' size (i + List.length l).
Proof.
  intros Hall. revert i. induction Hall as [|b l Hb Hall IH]; intros i; simpl.
  - f_equal. lia.
  - destruct (Nat.leb_spec size (length b)); [lia|].
    rewrite IH. f_equal. lia.
Qed.

Lemma splice1_last (l : list Buffer) x : splice1 (List.length l) (l ++ [x]) = l.
Proof.
  unfold splice1.
  rewrite skipn_all2 by (rewrite length_app; simpl; lia).
  rewrite firstn_app, firstn_all, Nat.sub_diag. simpl.
  now rewrite !app_nil_r.
Qed.

(** *** The extras *)

(** X12.  Whatever the clients do from an empty pool on, the pool holds at
    most [MAX_POOL_ENTRIES] idle buffers, none longer than twice
    [POOL_SIZE]; a [release] that would break either limit drops the buffer:
    the pool is left as it was, and the buffer is not wiped. *)
Theorem buffer_pool_bounded es h0 h bp :
  run es (h0, new) = Some (h, bp) ->
  List.length (pool bp) <= MAX_POOL_ENTRIES
  /\ Forall (fun b => length b <= POOL_SIZE * 2) (pool bp)
  /\ (forall buf,
        List.length (pool bp) = MAX_POOL_ENTRIES \/ POOL_SIZE * 2 < length buf ->
        release h bp buf = (h, bp)).
Proof.
  intros Hrun.
  assert (Hgen : forall es w w',
             run es w = Some w' ->
             List.length (pool (snd w)) <= MAX_POOL_ENTRIES
             /\ Forall (fun b => length b <= POOL_SIZE * 2) (pool (snd w)) ->
             List.length (pool (snd w')) <= MAX_POOL_ENTRIES
             /\ Forall (fun b => length b <= POOL_SIZE * 2) (pool (snd w'))).
  { clear. intros es. induction es as [|e es IH]; intros w w'; simpl.
    - now intros [= <-].
    - destruct (step w e) as [w1|] eqn:Hs; [|discriminate].
      eauto using step_keeps_bounds. }
  destruct (Hgen _ _ _ Hrun) as [Hn Hall].
  - simpl. split; [unfold MAX_POOL_ENTRIES; lia|constructor].
  - simpl in Hn, Hall. repeat split; auto.
    intros buf [Hfull|Hbig]; apply release_discarded; lia.
Qed.

(** X13.  Every [acquire] is counted once, as a hit or as a miss: after
    any history from a new pool, [hits + misses] is the number of calls of
    [acquire].  [release] and [clear] move no counter. *)
Theorem buffer_pool_counters_count_acquires es h0 h bp :
  run es (h0, new) = Some (h, bp) ->
  stat_hits (stats bp) + stat_misses (stats bp)
  = List.length (filter is_acquire es).
Proof.
  intros Hrun.
  assert (Hgen : forall es w w',
             run es w = Some w' ->
             hits (snd w') + misses (snd w')
             = hits (snd w) + misses (snd w)
               + List.length (filter is_acquire es)).
  { clear. intros es. induction es as [|e es IH]; intros w w'; simpl.
    - intros [= <-]. lia.
    - destruct (step w e) as [w1|] eqn:Hs; [|discriminate].
      intros Hr. rewrite (IH _ _ Hr), (step_counts_acquire _ _ _ Hs).
      destruct (is_acquire e); simpl; lia. }
  apply Hgen in Hrun. simpl in *. lia.
Qed.

(** X14.  A released buffer comes back: when the pool has room and none of
    its idle buffers is long enough for [size], a buffer of at most twice
    [POOL_SIZE] that is released is what the next [acquire] of a [size] up
    to its length returns -- the same memory, cut to [size], wiped -- and
    the pool is left as it was before the release, with one more hit. *)
Theorem buffer_pool_release_then_acquire h bp buf size :
  length buf <= POOL_SIZE * 2 ->
  List.length (pool bp) < MAX_POOL_ENTRIES ->
  Forall (fun b => length b < size) (pool bp) ->
  size <= length buf ->
  let h1 := fst (release h bp buf) in
  let bp1 := snd (release h bp buf) in
  let got := fst (fst (acquire h1 bp1 size)) in
  block got = block buf
  /\ offset got = offset buf
  /\ length got = size
  /\ bytes (snd (fst (acquire h1 bp1 size))) got = repeat x00 size
  /\ pool (snd (acquire h1 bp1 size)) = pool bp
  /\ hits (snd (acquire h1 bp1 size)) = S (hits bp)
  /\ misses (snd (acquire h1 bp1 size)) = misses bp.
Proof.
  intros Hlen Hroom Hshort Hfit h1 bp1 got.
  subst h1 bp1 got.
  rewrite (release_pooled h bp buf Hlen Hroom). simpl.
  assert (Hfind : find_from (pool bp ++ [buf]) size 0
                  = Some (List.length (pool bp), buf)).
  { rewrite find_from_skip by assumption. simpl.
    destruct (Nat.leb_spec size (length buf)); [reflexivity|lia]. }
  unfold acquire.
  destruct (Nat.ltb_spec (POOL_SIZE * 2) size); [lia|].
  simpl. rewrite Hfind. simpl. rewrite splice1_last.
  assert (Hz : zeroed (fill h buf x00)
                      (if length buf =? size then buf else slice buf 0 size)).
  { destruct (Nat.eqb_spec (length buf) size).
    - apply fill_zeroed_self.
    - apply zeroed_prefix; auto. apply fill_zeroed_self. }
  assert (Hshape : block (if length buf =? size then buf else slice buf 0 size)
                   = block buf
                   /\ offset (if length buf =? size then buf else slice buf 0 size)
                      = offset buf
                   /\ length (if length buf =? size then buf else slice buf 0 size)
                      = size).
  { destruct (Nat.eqb_spec (length buf) size); auto.
    apply slice_prefix. assumption. }
  destruct Hshape as (Hb & Ho & Hl).
  repeat split; auto.
  rewrite (bytes_zeroed _ _ Hz). now rewrite Hl.
Qed.

(** X15.  A hit that cuts a longer buffer gives away the rest of it for
    good: what the caller holds, and later releases, is the view of [size]
    bytes, so after that release the pool holds as many buffers as before
    the [acquire], with the one of [length buf] bytes replaced by one of
    [size] bytes at the end of the list. *)
Theorem buffer_pool_trim_loses_capacity h bp size i buf :
  size <= POOL_SIZE * 2 ->
  List.length (pool bp) <= MAX_POOL_ENTRIES ->
  find_from (pool bp) size 0 = Some (i, buf) ->
  size < length buf ->
  let got := fst (fst (acquire h bp size)) in
  let bp1 := snd (acquire h bp size) in
  let bp2 := snd (release (snd (fst (acquire h bp size))) bp1 got) in
  got = slice buf 0 size
  /\ length got = size
  /\ pool bp2 = splice1 i (pool bp) ++ [got]
  /\ List.length (pool bp2) = List.length (pool bp).
Proof.
  intros Hsize Hn Hfind Htrim got bp1 bp2.
  subst got bp1 bp2.
  destruct (find_from_first_fit _ _ _ _ _ Hfind) as (_ & Hnth & _).
  rewrite Nat.sub_0_r in Hnth.
  assert (Hi : i < List.length (pool bp))
    by (apply nth_error_Some; congruence).
  pose proof (splice1_length i (pool bp) Hi) as Hsp.
  unfold acquire.
  destruct (Nat.ltb_spec (POOL_SIZE * 2) size); [lia|].
  rewrite Hfind. simpl.
  destruct (Nat.eqb_spec (length buf) size); [lia|].
  destruct (slice_prefix buf size) as (_ & _ & Hl); [lia|].
  rewrite release_pooled; [|rewrite Hl; lia|cbn [pool]; lia].
  cbn [fst snd pool]. repeat split; auto.
  rewrite length_app. cbn [List.length]. lia.
Qed.

(** X16.  The scan is first-fit: an [acquire] served from the pool takes
    the first idle buffer that is long enough -- every buffer before it is
    too short -- removes that one buffer and leaves the others in their
    order. *)
Theorem buffer_pool_first_fit h bp size :
  hits (snd (acquire h bp size)) = S (hits bp) ->
  exists i idle_buf,
    nth_error (pool bp) i = Some idle_buf
    /\ size <= length idle_buf
    /\ (forall j b, j < i -> nth_error (pool bp) j = Some b -> length b < size)
    /\ pool (snd (acquire h bp size))
       = firstn i (pool bp) ++ skipn (S i) (pool bp)
    /\ S (List.length (pool (snd (acquire h bp size)))) = List.length (pool bp)
    /\ block (fst (fst (acquire h bp size))) = block idle_buf
    /\ offset (fst (fst (acquire h bp size))) = offset idle_buf.
Proof.
  intros Hhit.
  destruct (acquire_hit h bp size Hhit) as (i & idle_buf & Hf & Hb & Ho & _ & _).
  exists i, idle_buf.
  destruct (find_from_first_fit _ _ _ _ _ Hf) as (_ & Hnth & Hbefore).
  rewrite Nat.sub_0_r in Hnth, Hbefore.
  destruct (find_from_spec _ _ _ _ _ Hf) as [_ Hfit].
  assert (Hi : i < List.length (pool bp))
    by (apply nth_error_Some; congruence).
  assert (Hpool : pool (snd (acquire h bp size)) = splice1 i (pool bp)).
  { revert Hhit. unfold acquire.
    destruct (Nat.ltb_spec (POOL_SIZE * 2) size); simpl; [lia|].
    rewrite Hf. reflexivity. }
  repeat split; auto.
  rewrite Hpool. now apply splice1_length.
Qed.

End BufferPoolMore.

(** *** The extras on concrete pools *)

Lemma buffer_pool_bounded_witness :
  List.length (BufferPool.pool (snd Samples.after_history))
  <= BufferPool.MAX_POOL_ENTRIES
  /\ Forall (fun b => BufferPool.length b <= BufferPool.POOL_SIZE * 2)
            (BufferPool.pool (snd Samples.after_history))
  /\ (forall buf,
        List.length (BufferPool.pool (snd Samples.after_history))
        = BufferPool.MAX_POOL_ENTRIES
        \/ BufferPool.POOL_SIZE * 2 < BufferPool.length buf ->
        BufferPool.release (fst Samples.after_history)
                           (snd Samples.after_history) buf
        = (fst Samples.after_history, snd Samples.after_history)).
Proof.
  apply (buffer_pool_bounded Samples.history Samples.stale_heap).
  vm_compute. reflexivity.
Defined.

Lemma buffer_pool_counters_count_acquires_witness :
  BufferPool.stat_hits (BufferPool.stats (snd Samples.after_history))
  + BufferPool.stat_misses (BufferPool.stats (snd Samples.after_history))
  = List.length (filter BufferPool.is_acquire Samples.history).
Proof.
  apply (buffer_pool_counters_count_acquires
           Samples.history Samples.stale_heap (fst Samples.after_history)).
  vm_compute. reflexivity.
Defined.

Lemma buffer_pool_release_then_acquire_witness :
  let h1 := fst (BufferPool.release Samples.stale_heap BufferPool.new
                                    Samples.small_buffer) in
  let bp1 := snd (BufferPool.release Samples.stale_heap BufferPool.new
                                     Samples.small_buffer) in
  let got := fst (fst (BufferPool.acquire h1 bp1 200)) in
  BufferPool.block got = 7
  /\ BufferPool.offset got = 0
  /\ BufferPool.length got = 200
  /\ BufferPool.bytes (snd (fst (BufferPool.acquire h1 bp1 200))) got
     = repeat x00 200
  /\ BufferPool.pool (snd (BufferPool.acquire h1 bp1 200)) = []
  /\ BufferPool.hits (snd (BufferPool.acquire h1 bp1 200)) = 1
  /\ BufferPool.misses (snd (BufferPool.acquire h1 bp1 200)) = 0.
Proof.
  apply (buffer_pool_release_then_acquire
           Samples.stale_heap BufferPool.new Samples.small_buffer 200).
  - apply Nat.leb_le. vm_compute. reflexivity.
  - apply Nat.ltb_lt. vm_compute. reflexivity.
  - constructor.
  - apply Nat.leb_le. vm_compute. reflexivity.
Defined.

Lemma buffer_pool_trim_loses_capacity_witness :
  let h := fst Samples.after_history in
  let bp := snd Samples.after_history in
  let got := fst (fst (BufferPool.acquire h bp 64)) in
  let bp2 := snd (BufferPool.release (snd (fst (BufferPool.acquire h bp 64)))
                                     (snd (BufferPool.acquire h bp 64)) got) in
  got = BufferPool.slice Samples.first_buffer 0 64
  /\ BufferPool.length got = 64
  /\ BufferPool.pool bp2
     = BufferPool.splice1 0 (BufferPool.pool bp) ++ [got]
  /\ List.length (BufferPool.pool bp2) = List.length (BufferPool.pool bp).
Proof.
  apply (buffer_pool_trim_loses_capacity
           (fst Samples.after_history) (snd Samples.after_history)
           64 0 Samples.first_buffer).
  - apply Nat.leb_le. vm_compute. reflexivity.
  - apply Nat.leb_le. vm_compute. reflexivity.
  - vm_compute. reflexivity.
  - apply Nat.ltb_lt. vm_compute. reflexivity.
Defined.

Lemma buffer_pool_first_fit_witness :
  let h := fst Samples.after_history in
  let bp := snd Samples.after_history in
  exists i idle_buf,
    nth_error (BufferPool.pool bp) i = Some idle_buf
    /\ 64 <= BufferPool.length idle_buf
    /\ (forall j b, j < i -> nth_error (BufferPool.pool bp) j = Some b ->
                    BufferPool.length b < 64)
    /\ BufferPool.pool (snd (BufferPool.acquire h bp 64))
       = firstn i (BufferPool.pool bp) ++ skipn (S i) (BufferPool.pool bp)
    /\ S (List.length (BufferPool.pool (snd (BufferPool.acquire h bp 64))))
       = List.length (BufferPool.pool bp)
    /\ BufferPool.block (fst (fst (BufferPool.acquire h bp 64)))
       = BufferPool.block idle_buf
    /\ BufferPool.offset (fst (fst (BufferPool.acquire h bp 64)))
       = BufferPool.offset idle_buf.
Proof.
  apply (buffer_pool_first_fit
           (fst Samples.after_history) (snd Samples.after_history) 64).
  vm_compute. reflexivity.
Defined.

(** X17.  What [acquire] hands out for a size up to twice [POOL_SIZE] can
    always go back: its length is at most twice [POOL_SIZE], so a [release]
    into a pool with room wipes it and adds it at the end.  What the bypass
    hands out for a larger size is never pooled: its [release] changes
    nothing. *)
Theorem buffer_pool_acquired_is_poolable h bp size :
  let got := fst (fst (BufferPool.acquire h bp size)) in
  let h1 := snd (fst (BufferPool.acquire h bp size)) in
  let bp1 := snd (BufferPool.acquire h bp size) in
  (size <= BufferPool.POOL_SIZE * 2 ->
   List.length (BufferPool.pool bp1) < BufferPool.MAX_POOL_ENTRIES ->
   BufferPool.release h1 bp1 got
   = (BufferPool.fill h1 got x00,
      BufferPool.mk (BufferPool.pool bp1 ++ [got])
                    (BufferPool.hits bp1) (BufferPool.misses bp1)))
  /\ (BufferPool.POOL_SIZE * 2 < size ->
      BufferPool.release h1 bp1 got = (h1, bp1)).
Proof.
  intros got h1 bp1.
  pose proof (acquire_length h bp size) as Hlen.
  split.
  - intros Hsize Hroom. apply release_pooled; auto.
    subst got. clear Hlen Hroom h1 bp1.
    destruct (acquire_cases h bp size) as [Hbig|i buf Hle Hf|Hle Hf];
      cbn [fst snd BufferPool.allocUnsafe BufferPool.length].
    + lia.
    + apply find_from_spec in Hf. destruct Hf as [_ Hfit].
      destruct (Nat.eqb_spec (BufferPool.length buf) size); [lia|].
      destruct (slice_prefix buf size Hfit) as (_ & _ & ->). lia.
    + unfold BufferPool.POOL_SIZE in *. lia.
  - intros Hbig. apply release_discarded. right. subst got. lia.
Qed.

Lemma buffer_pool_acquired_is_poolable_witness :
  let got := fst (fst (BufferPool.acquire Samples.stale_heap BufferPool.new 100)) in
  let h1 := snd (fst (BufferPool.acquire Samples.stale_heap BufferPool.new 100)) in
  let bp1 := snd (BufferPool.acquire Samples.stale_heap BufferPool.new 100) in
  BufferPool.release h1 bp1 got
  = (BufferPool.fill h1 got x00,
     BufferPool.mk (BufferPool.pool bp1 ++ [got])
                   (BufferPool.hits bp1) (BufferPool.misses bp1))
  /\ (let big := BufferPool.POOL_SIZE * 2 + 1 in
      BufferPool.release
        (snd (fst (BufferPool.acquire Samples.stale_heap BufferPool.new big)))
        (snd (BufferPool.acquire Samples.stale_heap BufferPool.new big))
        (fst (fst (BufferPool.acquire Samples.stale_heap BufferPool.new big)))
      = (snd (fst (BufferPool.acquire Samples.stale_heap BufferPool.new big)),
         snd (BufferPool.acquire Samples.stale_heap BufferPool.new big))).
Proof.
  split.
  - apply (buffer_pool_acquired_is_poolable Samples.stale_heap BufferPool.new 100).
    + apply Nat.leb_le. vm_compute. reflexivity.
    + apply Nat.ltb_lt. vm_compute. reflexivity.
  - apply (buffer_pool_acquired_is_poolable
             Samples.stale_heap BufferPool.new (BufferPool.POOL_SIZE * 2 + 1)).
    apply Nat.ltb_lt. vm_compute. reflexivity.
Defined.

(** ** More on the content-type cache *)

Section ContentTypeCacheMore.
Context {E : Type}.

Local Abbreviation parser_fn := (ContentTypeCache.parser_fn E).
Local Abbreviation parse := (@ContentTypeCache.parse E).
Local Abbreviation run := (@ContentTypeCache.run E).
Local Abbreviation step := (@ContentTypeCache.step E).
Local Abbreviation parse_calls := (@ContentTypeCache.parse_calls E).
Local Abbreviation COMMON_TYPES := ContentTypeCache.COMMON_TYPES.
Local Abbreviation MAX_CACHE_SIZE := ContentTypeCache.MAX_CACHE_SIZE.

Implicit Types (st : ContentTypeCache.t) (header : string) (parser : parser_fn).

(** What a call of [parse] can do to the map: nothing, or add the header
    that was looked up and not found, at the end. *)
Lemma parse_cache_change st header parser :
  ContentTypeCache.cache (snd (parse header parser st))
  = ContentTypeCache.cache st
  \/ (JSMap.get header (ContentTypeCache.cache st) = None
      /\ JSMap.size (ContentTypeCache.cache st) < MAX_CACHE_SIZE
      /\ exists parsed,
           parser header = ContentTypeCache.Returned parsed
           /\ ContentTypeCache.cache (snd (parse header parser st))
              = ContentTypeCache.cache st ++ [(header, parsed)]).
Proof.
  destruct (JSMap.get header (ContentTypeCache.cache st)) as [c|] eqn:Hg.
  - rewrite (parse_hit _ _ _ _ Hg). now left.
  - destruct (parser header) as [parsed|e] eqn:Hp.
    + rewrite (parse_miss_returned _ _ _ _ Hg Hp). simpl.
      destruct (Nat.ltb_spec (JSMap.size (ContentTypeCache.cache st)) MAX_CACHE_SIZE);
        simpl; [|now left].
      right. repeat split; auto. exists parsed. split; auto.
      now apply jsmap_set_fresh.
    + rewrite (parse_miss_thrown _ _ _ _ Hg Hp). now left.
Qed.

Lemma parse_counts_one st header parser :
  ContentTypeCache.hits (snd (parse header parser st))
  + ContentTypeCache.misses (snd (parse header parser st))
  = S (ContentTypeCache.hits st + ContentTypeCache.misses st).
Proof.
  destruct (JSMap.get header (ContentTypeCache.cache st)) as [c|] eqn:Hg.
  - rewrite (parse_hit _ _ _ _ Hg). simpl. lia.
  - destruct (parse_miss_counted st header parser Hg) as [-> ->]. lia.
Qed.

Lemma run_parse_calls_cons header parser calls st :
  run (parse_calls ((header, parser) :: calls)) st
  = run (parse_calls calls) (snd (parse header parser st)).
Proof. reflexivity. Qed.

(** *** The extras *)

(** X18.  The seeded headers never reach the parser: in every state
    reached from a new cache by calls of [parse] and [clear], [parse] of a
    seeded header returns the seeded result and counts a hit, whatever the
    parser passed with it would do. *)
Theorem content_type_seeded_never_parsed (ops : list (ContentTypeCache.op E))
        header c parser :
  In (header, c) COMMON_TYPES ->
  let st := run ops ContentTypeCache.new in
  parse header parser st
  = (ContentTypeCache.Returned c, ContentTypeCache.incr_hits st).
Proof.
  intros Hin st.
  pose proof (seeded_run ops _ seeded_new) as (dyn & Hc & _). fold st in Hc.
  apply parse_hit. rewrite Hc, jsmap_get_app.
  now rewrite (common_types_get _ _ Hin).
Qed.

(** X19.  [parse] memoizes: when a header that is not in the cache is
    parsed with success while the map holds fewer than [MAX_CACHE_SIZE]
    entries, the result is stored, and every later [parse] of that header
    returns it and counts a hit without consulting its parser. *)
Theorem content_type_parse_memoizes st header parser parsed :
  JSMap.get header (ContentTypeCache.cache st) = None ->
  parser header = ContentTypeCache.Returned parsed ->
  JSMap.size (ContentTypeCache.cache st) < MAX_CACHE_SIZE ->
  let st1 := snd (parse header parser st) in
  fst (parse header parser st) = ContentTypeCache.Returned parsed
  /\ JSMap.size (ContentTypeCache.cache st1)
     = S (JSMap.size (ContentTypeCache.cache st))
  /\ forall parser',
       parse header parser' st1
       = (ContentTypeCache.Returned parsed, ContentTypeCache.incr_hits st1).
Proof.
  intros Hg Hp Hroom st1. subst st1.
  rewrite (parse_miss_returned _ _ _ _ Hg Hp).
  destruct (Nat.ltb_spec (JSMap.size (ContentTypeCache.cache st)) MAX_CACHE_SIZE);
    [|lia].
  simpl. split; [reflexivity|]. split.
  - apply jsmap_size_set_absent. now apply jsmap_get_none_notin.
  - intros parser'. apply parse_hit. simpl. apply jsmap_get_set_same.
Qed.

(** X20.  A full cache is frozen: once the map holds [MAX_CACHE_SIZE]
    entries, no sequence of calls of [parse] changes it -- nothing is
    stored, nothing is evicted -- so a header that is not in it is parsed
    anew on every call, until [clear]. *)
Theorem content_type_full_is_frozen st (calls : list (string * parser_fn))
        header parser :
  MAX_CACHE_SIZE <= JSMap.size (ContentTypeCache.cache st) ->
  let st1 := run (parse_calls calls) st in
  ContentTypeCache.cache st1 = ContentTypeCache.cache st
  /\ (JSMap.get header (ContentTypeCache.cache st) = None ->
      fst (parse header parser st1) = parser header
      /\ ContentTypeCache.cache (snd (parse header parser st1))
         = ContentTypeCache.cache st).
Proof.
  intros Hfull st1.
  assert (Hsame : ContentTypeCache.cache st1 = ContentTypeCache.cache st).
  { subst st1. revert st Hfull.
    induction calls as [|[h p] calls IH]; intros st Hfull; [reflexivity|].
    rewrite run_parse_calls_cons.
    destruct (parse_cache_change st h p) as [Heq|(_ & Hroom & _)]; [|lia].
    rewrite IH; rewrite Heq; auto. }
  split; [exact Hsame|]. intros Hg. rewrite <- Hsame in Hg.
  destruct (parse_cache_change st1 header parser) as [Heq|(_ & Hroom & _)];
    [|rewrite Hsame in Hroom; lia].
  split; [|now rewrite Heq].
  destruct (parser header) as [parsed|e] eqn:Hp.
  - now rewrite (parse_miss_returned _ _ _ _ Hg Hp).
  - now rewrite (parse_miss_thrown _ _ _ _ Hg Hp).
Qed.

(** X21.  [parse] never evicts and never overwrites: an entry that is in
    the map is still there, with the same value, after any sequence of
    calls of [parse]. *)
Theorem content_type_entries_persist st (calls : list (string * parser_fn))
        header c :
  JSMap.get header (ContentTypeCache.cache st) = Some c ->
  JSMap.get header (ContentTypeCache.cache (run (parse_calls calls) st)) = Some c.
Proof.
  revert st. induction calls as [|[h p] calls IH]; intros st Hg; [exact Hg|].
  rewrite run_parse_calls_cons. apply IH.
  destruct (parse_cache_change st h p) as [->|(Hn & _ & parsed & _ & ->)]; auto.
  rewrite jsmap_get_app, Hg. reflexivity.
Qed.

(** X22.  Every call of [parse] is counted once, as a hit or as a miss,
    also when the parser throws: after any sequence of calls on a new
    cache, [hits + misses] is the number of calls of [parse].  [clear]
    resets no counter. *)
Theorem content_type_counters_count_calls (ops : list (ContentTypeCache.op E)) :
  let st := run ops ContentTypeCache.new in
  ContentTypeCache.stat_hits (ContentTypeCache.stats st)
  + ContentTypeCache.stat_misses (ContentTypeCache.stats st)
  = List.length (filter (@ContentTypeCache.is_parse E) ops).
Proof.
  intros st. subst st. simpl.
  enough (Hgen : forall ops st0,
             ContentTypeCache.hits (run ops st0)
             + ContentTypeCache.misses (run ops st0)
             = ContentTypeCache.hits st0 + ContentTypeCache.misses st0
               + List.length (filter (@ContentTypeCache.is_parse E) ops))
    by (rewrite Hgen; reflexivity).
  clear. intros ops. induction ops as [|o ops IH]; intros st0.
  - cbn. lia.
  - change (run (o :: ops) st0) with (run ops (step st0 o)). rewrite IH.
    destruct o as [header parser|]; simpl.
    + rewrite parse_counts_one. lia.
    + lia.
Qed.

(** X23.  [clear] forgets what was added and keeps the counters: after
    it the map holds the seeded entries only, so a header that is not
    seeded goes to the parser again, whose completion is what [parse]
    ends with. *)
Theorem content_type_clear_forgets st header parser :
  ~ In header (JSMap.keys COMMON_TYPES) ->
  let st1 := ContentTypeCache.clear st in
  JSMap.get header (ContentTypeCache.cache st1) = None
  /\ fst (parse header parser st1) = parser header
  /\ ContentTypeCache.hits st1 = ContentTypeCache.hits st
  /\ ContentTypeCache.misses st1 = ContentTypeCache.misses st
  /\ JSMap.size (ContentTypeCache.cache st1) = List.length COMMON_TYPES.
Proof.
  intros Hnew st1.
  assert (Hg : JSMap.get header (ContentTypeCache.cache st1) = None)
    by (apply jsmap_get_none_notin; exact Hnew).
  repeat split; auto.
  destruct (parser header) as [parsed|e] eqn:Hp.
  - now rewrite (parse_miss_returned _ _ _ _ Hg Hp).
  - now rewrite (parse_miss_thrown _ _ _ _ Hg Hp).
Qed.

End ContentTypeCacheMore.

(** *** The extras on concrete caches *)

Lemma content_type_seeded_never_parsed_witness :
  let st := ContentTypeCache.run (Samples.parse_all (Samples.headers 3))
                                 ContentTypeCache.new in
  ContentTypeCache.parse "text/plain" Samples.reject st
  = (ContentTypeCache.Returned (ContentTypeCache.mkContentType "text/plain" []),
     ContentTypeCache.incr_hits st).
Proof.
  apply (content_type_seeded_never_parsed
           (Samples.parse_all (Samples.headers 3))).
  simpl. tauto.
Defined.

Lemma content_type_parse_memoizes_witness :
  let st1 := snd (ContentTypeCache.parse "x/new" Samples.accept
                                         ContentTypeCache.new) in
  fst (ContentTypeCache.parse "x/new" Samples.accept ContentTypeCache.new)
  = ContentTypeCache.Returned (ContentTypeCache.mkContentType "x/new" [])
  /\ JSMap.size (ContentTypeCache.cache st1) = 7
  /\ forall parser',
       ContentTypeCache.parse (E := string) "x/new" parser' st1
       = (ContentTypeCache.Returned (ContentTypeCache.mkContentType "x/new" []),
          ContentTypeCache.incr_hits st1).
Proof.
  apply (content_type_parse_memoizes
           ContentTypeCache.new "x/new"%string Samples.accept).
  - reflexivity.
  - reflexivity.
  - apply Nat.ltb_lt. reflexivity.
Defined.

Lemma content_type_full_is_frozen_witness :
  let full := ContentTypeCache.run (Samples.parse_all (Samples.headers 44))
                                   ContentTypeCache.new in
  let st1 := ContentTypeCache.run
               (ContentTypeCache.parse_calls
                  [("x/new"%string, Samples.accept);
                   ("x/other"%string, Samples.accept)])
               full in
  ContentTypeCache.cache st1 = ContentTypeCache.cache full
  /\ fst (ContentTypeCache.parse "x/new" Samples.accept st1)
     = Samples.accept "x/new"%string
  /\ ContentTypeCache.cache (snd (ContentTypeCache.parse "x/new" Samples.accept st1))
     = ContentTypeCache.cache full.
Proof.
  intros full st1.
  destruct (content_type_full_is_frozen
              full
              [("x/new"%string, Samples.accept); ("x/other"%string, Samples.accept)]
              "x/new"%string Samples.accept)
    as [Hsame Hmiss].
  - apply Nat.leb_le. vm_compute. reflexivity.
  - split; [exact Hsame|]. apply Hmiss. vm_compute. reflexivity.
Defined.

Lemma content_type_entries_persist_witness :
  JSMap.get "x/a"%string
    (ContentTypeCache.cache
       (ContentTypeCache.run
          (ContentTypeCache.parse_calls
             [("x/aa"%string, Samples.accept); ("x/a"%string, Samples.reject)])
          (ContentTypeCache.run (Samples.parse_all (Samples.headers 1))
                                ContentTypeCache.new)))
  = Some (ContentTypeCache.mkContentType "x/a" []).
Proof.
  apply content_type_entries_persist. vm_compute. reflexivity.
Defined.

Lemma content_type_clear_forgets_witness :
  let st := ContentTypeCache.run (Samples.parse_all (Samples.headers 3))
                                 ContentTypeCache.new in
  let st1 := ContentTypeCache.clear st in
  JSMap.get "x/a"%string (ContentTypeCache.cache st1) = None
  /\ fst (ContentTypeCache.parse "x/a" Samples.reject st1)
     = Samples.reject "x/a"%string
  /\ ContentTypeCache.hits st1 = ContentTypeCache.hits st
  /\ ContentTypeCache.misses st1 = ContentTypeCache.misses st
  /\ JSMap.size (ContentTypeCache.cache st1)
     = List.length ContentTypeCache.COMMON_TYPES.
Proof.
  apply content_type_clear_forgets.
  simpl. intuition discriminate.
Defined.

(** ** The benchmark's batches *)

Section BenchmarkFacts.
Import Benchmark.

Lemma list_sum_repeat b k : list_sum (repeat b k) = k * b.
Proof. induction k as [|k IH]; simpl; lia. Qed.

(** The batches before the last are full. *)
Lemma full_batches requests batchSize k :
  k * batchSize <= requests ->
  map (batch_count requests batchSize) (seq 0 k) = repeat batchSize k.
Proof.
  induction k as [|k IH]; intros Hk; [reflexivity|].
  rewrite seq_S, map_app, IH by lia.
  change (repeat batchSize (S k)) with (batchSize :: repeat batchSize k).
  rewrite repeat_cons. f_equal. simpl. f_equal.
  unfold batch_count. simpl in Hk. lia.
Qed.

Lemma batches_start_in_range requests batchSize i :
  1 <= batchSize ->
  i < ceil_div requests batchSize ->
  i * batchSize < requests.
Proof.
  intros Hb. unfold ceil_div.
  pose proof (Nat.div_mod_eq requests batchSize) as Hdm.
  pose proof (Nat.mod_upper_bound requests batchSize) as Hr.
  destruct (Nat.eqb_spec (requests mod batchSize) 0); intros Hi; nia.
Qed.

(** X24.  The batches of the benchmark cover the requests exactly: for a
    batch size of 1 at least, the sizes of the batches add up to the number
    of requests, each batch holds between 1 and [batchSize] requests, and
    each batch starts below the number of requests, so that the
    subtraction in its size does not go below zero. *)
Theorem benchmark_batches_cover_requests requests batchSize :
  1 <= batchSize ->
  list_sum (batch_counts requests batchSize) = requests
  /\ Forall (fun c => 1 <= c <= batchSize) (batch_counts requests batchSize)
  /\ (forall i, i < List.length (batch_counts requests batchSize) ->
                i * batchSize < requests).
Proof.
  intros Hb.
  pose proof (Nat.div_mod_eq requests batchSize) as Hdm.
  pose proof (Nat.mod_upper_bound requests batchSize) as Hr.
  split; [|split].
  - unfold batch_counts, ceil_div.
    destruct (Nat.eqb_spec (requests mod batchSize) 0) as [Hz|Hnz].
    + rewrite full_batches, list_sum_repeat by nia. nia.
    + rewrite seq_S, map_app, list_sum_app, full_batches, list_sum_repeat
        by nia.
      simpl. unfold batch_count. nia.
  - unfold batch_counts. rewrite Forall_forall. intros c Hc.
    apply in_map_iff in Hc. destruct Hc as (i & <- & Hi).
    apply in_seq in Hi.
    assert (i * batchSize < requests)
      by (apply batches_start_in_range; lia).
    unfold batch_count. lia.
  - intros i Hi. unfold batch_counts in Hi.
    rewrite length_map, length_seq in Hi.
    now apply batches_start_in_range.
Qed.

End BenchmarkFacts.

Lemma benchmark_batches_cover_requests_witness :
  list_sum (Benchmark.batch_counts 25 Benchmark.CONCURRENT_CONNECTIONS) = 25
  /\ Forall (fun c => 1 <= c <= Benchmark.CONCURRENT_CONNECTIONS)
            (Benchmark.batch_counts 25 Benchmark.CONCURRENT_CONNECTIONS)
  /\ (forall i,
        i < List.length (Benchmark.batch_counts 25 Benchmark.CONCURRENT_CONNECTIONS) ->
        i * Benchmark.CONCURRENT_CONNECTIONS < 25).
Proof.
  apply benchmark_batches_cover_requests.
  unfold Benchmark.CONCURRENT_CONNECTIONS. lia.
Defined.
